(** * objcache: a TTL + capacity bounded object cache (cache.go)

    Shallow embedding of [src/cache.go] and proofs of its contracts.

    The Go program keeps a [map[string]*list.Element] next to a
    [container/list] whose elements carry [pair] values.  A [*list.Element]
    is a pointer; here an element is its address [eid] together with the
    payload [Value], which the program never mutates after [PushBack].
    The clock ([time.Now]) is an input of every operation that reads it. *)

From stdpp Require Import gmap strings list fin_maps.

Local Open Scope Z_scope.

(** ** Machine integers and the clock *)

Definition int64_min : Z := - 2 ^ 63.
Definition int64_max : Z := 2 ^ 63 - 1.

Definition in_int64 (z : Z) : Prop := int64_min ≤ z ≤ int64_max.

(** Two's complement wrap-around of [int64] (and of [int] on 64-bit
    targets) arithmetic. *)
Definition wrap64 (z : Z) : Z := (z + 2 ^ 63) `mod` 2 ^ 64 - 2 ^ 63.

(** [time.Time] as the instant in nanoseconds since the Unix epoch; its
    range is far wider than [int64] nanoseconds, so [Add] is exact and only
    [UnixNano] truncates. *)
Definition Time : Type := Z.

(** [time.Duration] is an [int64] count of nanoseconds. *)
Definition Duration : Type := Z.

Definition Add (t : Time) (d : Duration) : Time := t + d.

Definition UnixNano (t : Time) : Z := wrap64 t.

(** A Go [error]; [None] is [nil]. *)
Definition error : Type := option string.

(** ** Lock events

    [mu sync.RWMutex] is followed through the events an operation performs:
    the lock calls and, between them, each write to [items], [list] or
    [itemCount]. *)
Inductive event : Type :=
  | EvLock
  | EvUnlock
  | EvRLock
  | EvRUnlock
  | EvWrite.

Inductive lockmode : Type :=
  | Free
  | Shared
  | Exclusive.

(** [writes_exclusive m t]: every write of [t], started in mode [m],
    happens while the write lock is held. *)
Fixpoint writes_exclusive (m : lockmode) (t : list event) : bool :=
  match t with
  | [] => true
  | EvLock :: t' => writes_exclusive Exclusive t'
  | EvRLock :: t' => writes_exclusive Shared t'
  | EvUnlock :: t' => writes_exclusive Free t'
  | EvRUnlock :: t' => writes_exclusive Free t'
  | EvWrite :: t' =>
      match m with
      | Exclusive => writes_exclusive m t'
      | _ => false
      end
  end.

Section Model.

Context {V : Type}.

(** [interface{}]: [None] is the nil interface. *)
Definition iface : Type := option V.

Record pair : Type := mkPair {
  Object : iface;
  expire : Z;
  key : string
}.

(** [*list.Element]: the address of the node and what it holds. *)
Record Element : Type := mkElement {
  eid : nat;
  Value : pair
}.

(** Modelled from the spec: the declaration of the type [Config] is not in
    [cache.go].  The spec gives a configuration the two options
    [MaxEntryLimit] (the live-entry ceiling) and [Expiration] (the default
    duration); [cache.go] compares the first with the [int] [itemCount] and
    assigns the second to a [time.Duration]. *)
Record Config : Type := mkConfig {
  MaxEntryLimit : Z;
  Expiration : Duration
}.

(** [ObjCache]; [lst] is the field [list] (front first). *)
Record ObjCache : Type := mkObjCache {
  items : gmap string Element;
  lst : list Element;
  itemCount : Z;
  config : Config
}.

Definition with_items (m : gmap string Element) (c : ObjCache) : ObjCache :=
  {| items := m; lst := lst c; itemCount := itemCount c; config := config c |}.

Definition with_lst (l : list Element) (c : ObjCache) : ObjCache :=
  {| items := items c; lst := l; itemCount := itemCount c; config := config c |}.

Definition with_itemCount (n : Z) (c : ObjCache) : ObjCache :=
  {| items := items c; lst := lst c; itemCount := n; config := config c |}.

(** What an operation returns, the cache it leaves and its lock events. *)
Record Result (A : Type) : Type := mkResult {
  value : A;
  cache : ObjCache;
  trace : list event
}.

Arguments mkResult {A} _ _ _.
Arguments value {A} _.
Arguments cache {A} _.
Arguments trace {A} _.

(** *** container/list *)

Definition Front (l : list Element) : option Element := head l.

(** [l.Remove(e)]: unlink the node [e] if it belongs to [l]. *)
Fixpoint Remove (e : Element) (l : list Element) : list Element :=
  match l with
  | [] => []
  | x :: l' => if decide (eid x = eid e) then l' else x :: Remove e l'
  end.

Definition PushBack (e : Element) (l : list Element) : list Element :=
  l ++ [e].

(** [l.MoveToBack(e)]: nothing if [e] is not a node of [l]. *)
Definition MoveToBack (e : Element) (l : list Element) : list Element :=
  match list_find (λ x, eid x = eid e) l with
  | Some (_, x) => Remove e l ++ [x]
  | None => l
  end.

(** The allocator hands out an address no reachable node has. *)
Definition fresh_eid (c : ObjCache) : nat :=
  S (max_list (eid <$> lst c) `max`
     max_list ((λ kv, eid kv.2) <$> map_to_list (items c))).

Definition new_element (c : ObjCache) (p : pair) : Element :=
  {| eid := fresh_eid c; Value := p |}.

(** *** cache.go *)

(** The [for] loop of [removeExpired]; [e] is the clock reading taken
    before the loop. *)
Fixpoint removeExpired_loop (fuel : nat) (e : Z) (c : ObjCache)
  : ObjCache * list event :=
  match fuel with
  | O => (c, [])
  | S fuel' =>
      match Front (lst c) with
      | None => (c, [])
      | Some elem =>
          let v := Value elem in
          if decide (expire v < e) then
            let c1 := with_itemCount (wrap64 (itemCount c - 1)) c in
            let c2 := with_items (delete (key v) (items c1)) c1 in
            let c3 := with_lst (Remove elem (lst c2)) c2 in
            let r := removeExpired_loop fuel' e c3 in
            (r.1, [EvWrite; EvWrite; EvWrite] ++ r.2)
          else (c, [])
      end
  end.

(** Every iteration that does not leave the loop unlinks the front node, so
    one more round than there are nodes is enough. *)
Definition removeExpired (now : Time) (c : ObjCache) : ObjCache * list event :=
  removeExpired_loop (S (length (lst c))) (UnixNano now) c.

(** [None]: the nil dereference of [elem.Value] on an empty list. *)
Definition removeOldest (c : ObjCache) : option (ObjCache * list event) :=
  let c1 := with_itemCount (wrap64 (itemCount c - 1)) c in
  match Front (lst c1) with
  | None => None
  | Some elem =>
      let v := Value elem in
      let c2 := with_items (delete (key v) (items c1)) c1 in
      let c3 := with_lst (Remove elem (lst c2)) c2 in
      Some (c3, [EvWrite; EvWrite; EvWrite])
  end.

(** [Set]; [now1] is the clock read by [removeExpired], [now2] the one
    read for the new pair.  [None] is a run-time panic. *)
Definition Set_ (c : ObjCache) (k : string) (x : iface) (d : Duration)
    (now1 now2 : Time) : option (Result error) :=
  let d := if decide (d = 0) then Expiration (config c) else d in
  match items c !! k with
  | None =>
      let r1 := removeExpired now1 c in
      let c1 := r1.1 in
      match (if decide (MaxEntryLimit (config c1) ≤ itemCount c1)
             then removeOldest c1 else Some (c1, [])) with
      | None => None
      | Some (c2, t2) =>
          let p := {| Object := x; key := k;
                      expire := UnixNano (Add now2 d) |} in
          let elem := new_element c2 p in
          let c3 := with_lst (PushBack elem (lst c2)) c2 in
          let c4 := with_items (<[k := elem]> (items c3)) c3 in
          let c5 := with_itemCount (wrap64 (itemCount c4 + 1)) c4 in
          Some {| value := None; cache := c5;
                  trace := [EvLock] ++ r1.2 ++ t2
                           ++ [EvWrite; EvWrite; EvWrite; EvUnlock] |}
      end
  | Some elem =>
      Some {| value := None;
              cache := with_lst (MoveToBack elem (lst c)) c;
              trace := [EvLock; EvWrite; EvUnlock] |}
  end.

Definition Get (c : ObjCache) (k : string) (now : Time)
  : Result (iface * bool) :=
  match items c !! k with
  | None =>
      {| value := (None, false); cache := c; trace := [EvRLock; EvRUnlock] |}
  | Some elem =>
      let v := Value elem in
      if decide (expire v < UnixNano now) then
        let c1 := with_itemCount (wrap64 (itemCount c - 1)) c in
        let c2 := with_items (delete k (items c1)) c1 in
        let c3 := with_lst (Remove elem (lst c2)) c2 in
        {| value := (None, false); cache := c3;
           trace := [EvRLock; EvWrite; EvWrite; EvWrite; EvRUnlock] |}
      else
        {| value := (Object v, true); cache := c;
           trace := [EvRLock; EvRUnlock] |}
  end.

Definition Del (c : ObjCache) (k : string) : Result bool :=
  match items c !! k with
  | Some item =>
      let c1 := with_itemCount (wrap64 (itemCount c - 1)) c in
      let c2 := with_items (delete k (items c1)) c1 in
      let c3 := with_lst (Remove item (lst c2)) c2 in
      {| value := true; cache := c3;
         trace := [EvLock; EvWrite; EvWrite; EvWrite; EvUnlock] |}
  | None =>
      {| value := false; cache := c; trace := [EvLock; EvUnlock] |}
  end.

Definition New (cfg : Config) : ObjCache * error :=
  ({| items := ∅; lst := []; itemCount := 0; config := cfg |}, None).

(** The three statements that drop a node: [itemCount] down by one, the
    key out of [items], the node out of [list]. *)
Definition unlink (k : string) (e : Element) (c : ObjCache) : ObjCache :=
  with_lst (Remove e (lst c))
    (with_items (delete k (items c))
       (with_itemCount (wrap64 (itemCount c - 1)) c)).

(** ** Invariants *)

(** The [int] fields hold [int]s. *)
Definition well_typed (c : ObjCache) : Prop :=
  in_int64 (itemCount c) ∧ in_int64 (MaxEntryLimit (config c)).

(** I1: nodes are distinct, and [items] maps [k] to [e] exactly when [e]
    is a node of the list that holds key [k]. *)
Definition I1 (c : ObjCache) : Prop :=
  NoDup (eid <$> lst c) ∧
  ∀ k e, items c !! k = Some e ↔ e ∈ lst c ∧ key (Value e) = k.

(** I2: [itemCount] is the number of nodes. *)
Definition I2 (c : ObjCache) : Prop :=
  itemCount c = Z.of_nat (length (lst c)).

(** How many nodes hold key [k]. *)
Definition entries_with (k : string) (c : ObjCache) : nat :=
  length (filter (λ e, key (Value e) = k) (lst c)).

(** ** Definitions used by the statements *)

(** How many leading nodes of [l] are stale with respect to reading [e]. *)
Fixpoint stale_front (e : Z) (l : list Element) : nat :=
  match l with
  | [] => O
  | x :: l' => if decide (expire (Value x) < e) then S (stale_front e l') else O
  end.

(** The state the sweep leaves, in closed form. *)
Definition swept (e : Z) (c : ObjCache) : ObjCache :=
  let n := stale_front e (lst c) in
  {| items := foldl (λ m x, delete (key (Value x)) m) (items c)
                (take n (lst c));
     lst := drop n (lst c);
     itemCount := itemCount c - Z.of_nat n;
     config := config c |}.

(** The capacity check of [Set]: lines 62 to 64. *)
Definition evict_if_full (c : ObjCache) : option (ObjCache * list event) :=
  if decide (MaxEntryLimit (config c) ≤ itemCount c)
  then removeOldest c else Some (c, []).

(** Duration used by [Set]: lines 53 to 55. *)
Definition ttl (c : ObjCache) (d : Duration) : Duration :=
  if decide (d = 0) then Expiration (config c) else d.

(** The pair built at lines 66 to 70. *)
Definition new_pair (c : ObjCache) (k : string) (x : iface) (d : Duration)
    (now2 : Time) : pair :=
  {| Object := x; key := k; expire := UnixNano (Add now2 (ttl c d)) |}.

(** Lines 71 and 72. *)
Definition push_new (c : ObjCache) (p : pair) : ObjCache :=
  let elem := new_element c p in
  with_itemCount (wrap64 (itemCount c + 1))
    (with_items (<[key p := elem]> (items c))
       (with_lst (PushBack elem (lst c)) c)).

(** The caches a program can build with the public operations. *)
Inductive reachable (cfg : Config) : ObjCache → Prop :=
  | reach_New : reachable cfg (New cfg).1
  | reach_Set c k x d now1 now2 r :
      reachable cfg c → Set_ c k x d now1 now2 = Some r →
      reachable cfg (cache r)
  | reach_Get c k now :
      reachable cfg c → reachable cfg (cache (Get c k now))
  | reach_Del c k :
      reachable cfg c → reachable cfg (cache (Del c k)).

(** One call of [Set] with the two clock readings it takes. *)
Record SetCall : Type := mkSetCall {
  call_key : string;
  call_val : iface;
  call_ttl : Duration;
  call_now1 : Time;
  call_now2 : Time
}.

Fixpoint SetAll (c : ObjCache) (calls : list SetCall) : option ObjCache :=
  match calls with
  | [] => Some c
  | o :: calls' =>
      match Set_ c (call_key o) (call_val o) (call_ttl o)
                 (call_now1 o) (call_now2 o) with
      | None => None
      | Some r => SetAll (cache r) calls'
      end
  end.

(** The [expire] a call gives to the node it inserts. *)
Definition call_expire (cfg : Config) (o : SetCall) : Z :=
  UnixNano (Add (call_now2 o)
              (if decide (call_ttl o = 0) then Expiration cfg
               else call_ttl o)).

(** No node inserted by the run is stale at any sweep of the run. *)
Definition no_expiry (cfg : Config) (calls : list SetCall) : Prop :=
  ∀ o o', o ∈ calls → o' ∈ calls →
          ¬ call_expire cfg o < UnixNano (call_now1 o').

Definition keys_of (l : list Element) : list string :=
  (λ e, key (Value e)) <$> l.

(** The pair a call stores in the node it inserts. *)
Definition call_pair (cfg : Config) (o : SetCall) : pair :=
  {| Object := call_val o; key := call_key o; expire := call_expire cfg o |}.

End Model.

Arguments iface : clear implicits.
Arguments pair : clear implicits.
Arguments Element : clear implicits.
Arguments ObjCache : clear implicits.
Arguments Result : clear implicits.
Arguments SetCall : clear implicits.
Arguments mkResult {V A} _ _ _.
Arguments value {V A} _.
Arguments cache {V A} _.
Arguments trace {V A} _.

(** ** Concrete runs *)

Definition cfg2 : Config := {| MaxEntryLimit := 2; Expiration := 10 |}.

Definition node_a : Element Z :=
  {| eid := 1; Value := {| Object := Some 1; expire := 105; key := "a" |} |}.

Definition node_b : Element Z :=
  {| eid := 2; Value := {| Object := Some 2; expire := 500; key := "b" |} |}.

(** After [Set("a", 1, 5)] at reading 100: *)
Definition cache_a : ObjCache Z :=
  {| items := {[ "a" := node_a ]}; lst := [node_a]; itemCount := 1;
     config := cfg2 |}.

(** and after [Set("b", 2, 399)] at reading 101. *)
Definition cache_ab : ObjCache Z :=
  {| items := <[ "b" := node_b ]> {[ "a" := node_a ]};
     lst := [node_a; node_b]; itemCount := 2; config := cfg2 |}.

(** [cache_ab] after a refresh of ["a"]: a fresh front, a stale node behind
    it at reading 200. *)
Definition cache_ba : ObjCache Z :=
  {| items := <[ "b" := node_b ]> {[ "a" := node_a ]};
     lst := [node_b; node_a]; itemCount := 2; config := cfg2 |}.

(** A configuration with no room at all. *)
Definition cfg0 : Config := {| MaxEntryLimit := 0; Expiration := 10 |}.

Definition calls3 : list (SetCall Z) :=
  [ {| call_key := "a"; call_val := Some 1; call_ttl := 5;
       call_now1 := 100; call_now2 := 100 |};
    {| call_key := "b"; call_val := Some 2; call_ttl := 399;
       call_now1 := 101; call_now2 := 101 |};
    {| call_key := "c"; call_val := Some 3; call_ttl := 0;
       call_now1 := 102; call_now2 := 102 |} ].

(** * Proofs *)

Section Proofs.

Context {V : Type}.

Implicit Types (c : ObjCache V) (l : list (Element V)) (p : pair V).
Implicit Types (calls rest : list (SetCall V)).

(** ** Arithmetic *)

Lemma wrap64_id z : in_int64 z → wrap64 z = z.
Proof.
  unfold in_int64, int64_min, int64_max, wrap64. intros Hz.
  rewrite Z.mod_small; lia.
Qed.

Lemma wrap64_range z : in_int64 (wrap64 z).
Proof.
  unfold in_int64, int64_min, int64_max, wrap64.
  pose proof (Z.mod_pos_bound (z + 2 ^ 63) (2 ^ 64)). lia.
Qed.

(** ** The list operations *)

Lemma Remove_head e l : Remove e (e :: l) = l.
Proof. simpl. by rewrite decide_True. Qed.

Lemma Remove_fresh e l : eid e ∉ eid <$> l → Remove e l = l.
Proof.
  induction l as [|x l IH]; [done|]. rewrite fmap_cons, not_elem_of_cons.
  intros [Hne Hl]. simpl. rewrite decide_False by done. by rewrite IH.
Qed.

Lemma Remove_middle e l1 l2 :
  eid e ∉ eid <$> l1 → Remove e (l1 ++ e :: l2) = l1 ++ l2.
Proof.
  induction l1 as [|x l1 IH]; simpl.
  - intros _. by rewrite decide_True.
  - rewrite not_elem_of_cons. intros [Hne Hl].
    rewrite decide_False by done. by rewrite IH.
Qed.

Lemma Remove_sublist e l : Remove e l `sublist_of` l.
Proof.
  induction l as [|x l IH]; simpl; [done|].
  case_decide; [by apply sublist_cons | by apply sublist_skip].
Qed.

Lemma Remove_length e l :
  eid e ∈ eid <$> l → S (length (Remove e l)) = length l.
Proof.
  induction l as [|x l IH]; simpl.
  - by intros ?%elem_of_nil.
  - case_decide as Hx; [done|]. rewrite elem_of_cons.
    intros [?|Hl]; [congruence|]. simpl. by rewrite IH.
Qed.

Lemma Remove_elem_of e l x :
  NoDup (eid <$> l) → e ∈ l →
  x ∈ Remove e l ↔ x ∈ l ∧ x ≠ e.
Proof.
  intros Hnd He. apply list_elem_of_split in He as (l1 & l2 & ->).
  rewrite fmap_app, fmap_cons in Hnd.
  apply NoDup_app in Hnd as (Hnd1 & Hdisj & Hnd2).
  apply NoDup_cons in Hnd2 as (He2 & Hnd2).
  assert (He1 : eid e ∉ eid <$> l1).
  { intros Hin. apply (Hdisj _ Hin). by left. }
  rewrite Remove_middle by done.
  rewrite !elem_of_app, elem_of_cons. split.
  - intros [Hx|Hx].
    + split; [by left|]. intros ->. apply He1. by apply list_elem_of_fmap_2.
    + split; [by right; right|]. intros ->. apply He2.
      by apply list_elem_of_fmap_2.
  - intros [[Hx|[->|Hx]] Hne]; [by left|done|by right].
Qed.

Lemma Remove_NoDup e l : NoDup (eid <$> l) → NoDup (eid <$> Remove e l).
Proof.
  intros Hnd. eapply sublist_NoDup; [exact Hnd|].
  apply fmap_sublist, Remove_sublist.
Qed.

Lemma fresh_eid_lst c p : eid (new_element c p) ∉ eid <$> lst c.
Proof.
  intros Hin%max_list_elem_of_le. simpl in Hin. unfold fresh_eid in Hin. lia.
Qed.

(** ** [unlink] and the invariants *)

Lemma unlink_well_typed k e c : well_typed c → well_typed (unlink k e c).
Proof. intros [_ Hm]. split; [apply wrap64_range | exact Hm]. Qed.

Lemma unlink_I2 k e c :
  well_typed c → I2 c → eid e ∈ eid <$> lst c → I2 (unlink k e c).
Proof.
  unfold I2, well_typed, in_int64, int64_min. intros [Hc _] Hn He. simpl.
  apply Remove_length in He. rewrite wrap64_id; [lia|].
  unfold in_int64, int64_min. lia.
Qed.

Lemma unlink_I1 k e c : I1 c → items c !! k = Some e → I1 (unlink k e c).
Proof.
  intros [Hnd Hix] Hk. pose proof (proj1 (Hix k e) Hk) as [He Hke].
  split; simpl; [by apply Remove_NoDup|].
  intros k' e'. rewrite Remove_elem_of by done. split.
  - intros Hl. destruct (decide (k = k')) as [->|Hne].
    + by rewrite lookup_delete_eq in Hl.
    + rewrite lookup_delete_ne in Hl by done.
      apply Hix in Hl as [He' Hke']. repeat split; [done| |done].
      intros ->. congruence.
  - intros [[He' Hne] Hke']. assert (Hl : items c !! k' = Some e').
    { by apply Hix. }
    rewrite lookup_delete_ne; [done|]. intros ->. congruence.
Qed.

Lemma unlink_lookup_ne k k' e c :
  k ≠ k' → items (unlink k e c) !! k' = items c !! k'.
Proof. intros Hne. simpl. by rewrite lookup_delete_ne. Qed.

Lemma unlink_lookup_None k k' e c :
  items c !! k' = None → items (unlink k e c) !! k' = None.
Proof. intros Hn. simpl. rewrite lookup_delete_None. by right. Qed.

(** A front node is indexed under its own key. *)
Lemma I1_front c x l :
  I1 c → lst c = x :: l → items c !! key (Value x) = Some x.
Proof.
  intros [_ Hix] Hl. apply Hix. split; [|done]. rewrite Hl. by left.
Qed.

(** ** The expiration sweep *)

Lemma stale_front_le e l : (stale_front e l ≤ length l)%nat.
Proof. induction l as [|x l IH]; simpl; [lia|]. case_decide; lia. Qed.

(** Whatever holds before the loop and survives unlinking a front node
    holds after it. *)
Lemma removeExpired_loop_ind (P : ObjCache V → Prop) fuel e c :
  (∀ c' x l, P c' → lst c' = x :: l → P (unlink (key (Value x)) x c')) →
  P c → P (removeExpired_loop fuel e c).1.
Proof.
  intros Hstep. revert c. induction fuel as [|fuel IH]; intros c Hc; [done|].
  simpl. destruct (lst c) as [|x l] eqn:Hl; simpl; [done|].
  case_decide; [|done]. simpl. apply IH.
  specialize (Hstep c x l Hc Hl). unfold unlink in Hstep. simpl in Hstep.
  by rewrite Hl in Hstep.
Qed.

(** More fuel than nodes: the loop leaves by one of its two [break]s, and
    the result does not depend on the fuel. *)
Lemma removeExpired_loop_fuel fuel1 fuel2 e c :
  (length (lst c) < fuel1)%nat → (length (lst c) < fuel2)%nat →
  removeExpired_loop fuel1 e c = removeExpired_loop fuel2 e c.
Proof.
  revert fuel2 c. induction fuel1 as [|fuel1 IH]; intros fuel2 c H1 H2; [lia|].
  destruct fuel2 as [|fuel2]; [lia|]. simpl.
  destruct (lst c) as [|x l'] eqn:Hl; simpl; [done|].
  case_decide; [|done]. rewrite decide_True by done.
  rewrite (IH fuel2); [done|simpl in *; lia..].
Qed.

Lemma removeExpired_config now c : config (removeExpired now c).1 = config c.
Proof.
  unfold removeExpired.
  by apply (removeExpired_loop_ind (λ c', config c' = config c)).
Qed.

Lemma removeExpired_well_typed now c :
  well_typed c → well_typed (removeExpired now c).1.
Proof.
  unfold removeExpired. apply removeExpired_loop_ind.
  intros. by apply unlink_well_typed.
Qed.

Lemma removeExpired_I2 now c :
  well_typed c → I2 c → I2 (removeExpired now c).1 ∧ well_typed (removeExpired now c).1.
Proof.
  intros Hwt Hi. unfold removeExpired.
  apply (removeExpired_loop_ind (λ c', I2 c' ∧ well_typed c')); [|done].
  intros c' x l [Hi' Hwt'] Hl. split; [|by apply unlink_well_typed].
  apply unlink_I2; [done..|]. rewrite Hl. by left.
Qed.

Lemma removeExpired_I1 now c : I1 c → I1 (removeExpired now c).1.
Proof.
  unfold removeExpired. apply removeExpired_loop_ind.
  intros c' x l Hi Hl. apply unlink_I1; [done|]. by eapply I1_front.
Qed.

Lemma removeExpired_lookup_None now c k :
  items c !! k = None → items (removeExpired now c).1 !! k = None.
Proof.
  unfold removeExpired.
  apply (removeExpired_loop_ind (λ c', items c' !! k = None)).
  intros. by apply unlink_lookup_None.
Qed.

Lemma removeExpired_loop_swept fuel e c :
  (length (lst c) < fuel)%nat → well_typed c → I2 c →
  (removeExpired_loop fuel e c).1 = swept e c.
Proof.
  revert c. induction fuel as [|fuel IH]; intros c Hf Hwt Hi; [lia|].
  unfold swept. destruct c as [m l n cfg]. simpl in *.
  destruct l as [|x l]; simpl; [by rewrite Z.sub_0_r|].
  case_decide as Hx; simpl; [|by rewrite Z.sub_0_r].
  rewrite decide_True by done.
  set (c3 := {| items := delete (key (Value x)) m; lst := l;
                itemCount := wrap64 (n - 1); config := cfg |}).
  assert (Hn : wrap64 (n - 1) = n - 1).
  { unfold I2 in Hi. simpl in Hi. destruct Hwt as [Hr _]. simpl in Hr.
    apply wrap64_id. unfold in_int64, int64_min in *. lia. }
  change (with_lst l _) with c3.
  rewrite (IH c3); subst c3; simpl.
  - unfold swept. simpl. rewrite Hn. f_equal. lia.
  - simpl in Hf. lia.
  - split; [apply wrap64_range | apply Hwt].
  - unfold I2 in *. simpl in *. lia.
Qed.

Lemma removeExpired_swept now c :
  well_typed c → I2 c → (removeExpired now c).1 = swept (UnixNano now) c.
Proof. intros. apply removeExpired_loop_swept; [lia|done..]. Qed.

Lemma stale_front_drop e l x :
  head (drop (stale_front e l) l) = Some x → ¬ expire (Value x) < e.
Proof.
  induction l as [|y l IH]; simpl; [done|].
  case_decide as Hy; simpl; [done|]. by intros [= ->].
Qed.

Lemma stale_front_take e l x :
  x ∈ take (stale_front e l) l → expire (Value x) < e.
Proof.
  induction l as [|y l IH]; simpl; [by intros ?%elem_of_nil|].
  case_decide as Hy; simpl; [|by intros ?%elem_of_nil].
  rewrite elem_of_cons. intros [->|Hx]; [done|by apply IH].
Qed.

(** ** [MoveToBack] *)

Lemma MoveToBack_middle e l1 l2 :
  eid e ∉ eid <$> l1 → MoveToBack e (l1 ++ e :: l2) = l1 ++ l2 ++ [e].
Proof.
  intros He. unfold MoveToBack.
  assert (Hf : list_find (λ x, eid x = eid e) (l1 ++ e :: l2)
               = Some (length l1, e)).
  { apply list_find_Some. split_and!; [|done|].
    - by rewrite list_lookup_middle.
    - intros j y Hj Hlt Hy. apply He. rewrite <- Hy.
      apply list_elem_of_fmap_2. rewrite lookup_app_l in Hj by done.
      by eapply list_elem_of_lookup_2. }
  rewrite Hf, Remove_middle by done. by rewrite <- app_assoc.
Qed.

Lemma MoveToBack_absent e l : eid e ∉ eid <$> l → MoveToBack e l = l.
Proof.
  intros He. unfold MoveToBack.
  destruct (list_find _ l) as [[i x]|] eqn:Hf; [|done].
  apply list_find_Some in Hf as (Hi & Hx & _). exfalso. apply He.
  rewrite <- Hx. apply list_elem_of_fmap_2. by eapply list_elem_of_lookup_2.
Qed.

(** In a list of distinct nodes the node splits the list in one way. *)
Lemma NoDup_eid_split e l :
  NoDup (eid <$> l) → e ∈ l →
  ∃ l1 l2,
    l = l1 ++ e :: l2 ∧ (eid e ∉ eid <$> l1) ∧ (eid e ∉ eid <$> l2).
Proof.
  intros Hnd (l1 & l2 & ->)%list_elem_of_split. exists l1, l2.
  rewrite fmap_app, fmap_cons in Hnd.
  apply NoDup_app in Hnd as (_ & Hdisj & Hnd2).
  apply NoDup_cons in Hnd2 as (He2 & _). split_and!; [done| |done].
  intros Hin. apply (Hdisj _ Hin). by left.
Qed.

Lemma MoveToBack_Permutation e l :
  NoDup (eid <$> l) → e ∈ l → MoveToBack e l ≡ₚ l.
Proof.
  intros Hnd He. destruct (NoDup_eid_split e l Hnd He) as (l1 & l2 & -> & H1 & _).
  rewrite MoveToBack_middle by done.
  apply Permutation_app_head. by rewrite <- Permutation_cons_append.
Qed.

(** ** [removeOldest] and the capacity check *)

Lemma removeOldest_cons c x l :
  lst c = x :: l →
  removeOldest c
  = Some (unlink (key (Value x)) x c, [EvWrite; EvWrite; EvWrite]).
Proof. intros Hl. unfold removeOldest, unlink. simpl. by rewrite Hl. Qed.

Lemma removeOldest_nil c : lst c = [] → removeOldest c = None.
Proof. intros Hl. unfold removeOldest. simpl. by rewrite Hl. Qed.

Lemma evict_if_full_returns c :
  1 ≤ MaxEntryLimit (config c) → I2 c → is_Some (evict_if_full c).
Proof.
  intros Hmax Hi. unfold evict_if_full. case_decide as Hfull; [|done].
  destruct (lst c) as [|x l] eqn:Hl.
  - unfold I2 in Hi. rewrite Hl in Hi. simpl in Hi. lia.
  - by erewrite removeOldest_cons.
Qed.

Lemma evict_if_full_cases c c2 t2 :
  evict_if_full c = Some (c2, t2) →
  (itemCount c < MaxEntryLimit (config c) ∧ c2 = c ∧ t2 = []) ∨
  (MaxEntryLimit (config c) ≤ itemCount c ∧
   ∃ x l, lst c = x :: l ∧ c2 = unlink (key (Value x)) x c ∧
          t2 = [EvWrite; EvWrite; EvWrite]).
Proof.
  unfold evict_if_full. case_decide as Hfull.
  - intros Hr. right. split; [done|]. destruct (lst c) as [|x l] eqn:Hl.
    + by rewrite removeOldest_nil in Hr.
    + erewrite removeOldest_cons in Hr by done. exists x, l. by simplify_eq.
  - intros [= <- <-]. left. split; [lia|done].
Qed.

Lemma evict_if_full_I2 c c2 t2 :
  evict_if_full c = Some (c2, t2) → well_typed c → I2 c →
  well_typed c2 ∧ I2 c2 ∧ config c2 = config c ∧ itemCount c2 < int64_max ∧
  itemCount c2 < Z.max (MaxEntryLimit (config c)) (itemCount c).
Proof.
  intros Hev Hwt Hi.
  apply evict_if_full_cases in Hev
    as [(Hlt & -> & ->)|(Hle & x & l & Hl & -> & ->)].
  - split_and!; [done..| |lia]. destruct Hwt as [_ [_ Hm]]. lia.
  - assert (Hin : eid x ∈ eid <$> lst c) by (rewrite Hl; by left).
    pose proof (unlink_I2 (key (Value x)) x c Hwt Hi Hin) as Hi'.
    split_and!; [by apply unlink_well_typed|done|done|..].
    + unfold I2 in Hi'. rewrite Hi'. simpl. rewrite Hl, Remove_head.
      destruct Hwt as [[_ Hc] _]. unfold I2 in Hi. rewrite Hl in Hi.
      simpl in Hi. lia.
    + unfold I2 in Hi'. rewrite Hi'. simpl. rewrite Hl, Remove_head.
      unfold I2 in Hi. rewrite Hl in Hi. simpl in Hi. lia.
Qed.

Lemma evict_if_full_I1 c c2 t2 :
  evict_if_full c = Some (c2, t2) → I1 c → I1 c2.
Proof.
  intros Hev Hi.
  apply evict_if_full_cases in Hev
    as [(Hlt & -> & ->)|(Hle & x & l & Hl & -> & ->)]; [done|].
  apply unlink_I1; [done|]. by eapply I1_front.
Qed.

Lemma evict_if_full_lookup_None c c2 t2 k :
  evict_if_full c = Some (c2, t2) →
  items c !! k = None → items c2 !! k = None.
Proof.
  intros Hev Hk.
  apply evict_if_full_cases in Hev
    as [(Hlt & -> & ->)|(Hle & x & l & Hl & -> & ->)]; [done|].
  by apply unlink_lookup_None.
Qed.

(** ** The insertion at the end of [Set] *)

Lemma Set__absent c k x d now1 now2 :
  items c !! k = None →
  Set_ c k x d now1 now2 =
  match evict_if_full (removeExpired now1 c).1 with
  | None => None
  | Some (c2, t2) =>
      Some {| value := None;
              cache := push_new c2 (new_pair c k x d now2);
              trace := [EvLock] ++ (removeExpired now1 c).2 ++ t2
                       ++ [EvWrite; EvWrite; EvWrite; EvUnlock] |}
  end.
Proof. intros Hk. unfold Set_. by rewrite Hk. Qed.

Lemma Set__present c k x d now1 now2 e :
  items c !! k = Some e →
  Set_ c k x d now1 now2 =
  Some {| value := None; cache := with_lst (MoveToBack e (lst c)) c;
          trace := [EvLock; EvWrite; EvUnlock] |}.
Proof. intros Hk. unfold Set_. by rewrite Hk. Qed.

Lemma push_new_well_typed c p : well_typed c → well_typed (push_new c p).
Proof. intros [_ Hm]. split; [apply wrap64_range | exact Hm]. Qed.

Lemma push_new_I2 c p :
  well_typed c → I2 c → itemCount c < int64_max → I2 (push_new c p).
Proof.
  unfold I2. intros [[Hlo _] _] Hi Hlt. simpl. unfold PushBack.
  rewrite length_app. simpl. rewrite wrap64_id; [lia|].
  unfold in_int64 in *. unfold int64_min in *. lia.
Qed.

Lemma push_new_I1 c p :
  I1 c → items c !! key p = None → I1 (push_new c p).
Proof.
  intros [Hnd Hix] Hk. pose proof (fresh_eid_lst c p) as Hfresh.
  split; simpl; unfold PushBack.
  - rewrite fmap_app. apply NoDup_app. split_and!; [done| |apply NoDup_singleton].
    intros n Hn. simpl. rewrite list_elem_of_singleton. intros ->. done.
  - intros k' e'. rewrite elem_of_app, list_elem_of_singleton.
    destruct (decide (key p = k')) as [<-|Hne].
    + rewrite lookup_insert_eq. split.
      * intros [= <-]. split; [by right|done].
      * intros [[He' | ->] Hke']; [|done].
        assert (items c !! key p = Some e') by by apply Hix. congruence.
    + rewrite lookup_insert_ne by done. rewrite Hix. split.
      * intros [He' Hke']. split; [by left|done].
      * intros [[He' | ->] Hke']; [done|]. simpl in Hke'. congruence.
Qed.

(** ** [Set] keeps the invariants and returns *)

Lemma Set__returns c k x d now1 now2 :
  1 ≤ MaxEntryLimit (config c) → well_typed c → I2 c →
  ∃ r, Set_ c k x d now1 now2 = Some r ∧ value r = None.
Proof.
  intros Hmax Hwt Hi. destruct (items c !! k) as [e|] eqn:Hk.
  - erewrite Set__present by done. by eexists.
  - rewrite Set__absent by done.
    destruct (removeExpired_I2 now1 c Hwt Hi) as [Hi1 Hwt1].
    destruct (evict_if_full_returns (removeExpired now1 c).1)
      as [[c2 t2] Hev]; [by rewrite removeExpired_config|done|].
    rewrite Hev. by eexists.
Qed.

Lemma Set__invariants c k x d now1 now2 r :
  Set_ c k x d now1 now2 = Some r → well_typed c → I1 c → I2 c →
  well_typed (cache r) ∧ I1 (cache r) ∧ I2 (cache r) ∧
  config (cache r) = config c.
Proof.
  intros Hset Hwt Hi1 Hi2. destruct (items c !! k) as [e|] eqn:Hk.
  - erewrite Set__present in Hset by done. simplify_eq. simpl.
    destruct Hi1 as [Hnd Hix]. pose proof (proj1 (Hix k e) Hk) as [He _].
    pose proof (MoveToBack_Permutation e (lst c) Hnd He) as Hp.
    split_and!; [done| |by unfold I2; simpl; rewrite Hp|done].
    split; simpl; [by rewrite Hp|]. intros k' e'. by rewrite Hp.
  - rewrite Set__absent in Hset by done.
    destruct (removeExpired_I2 now1 c Hwt Hi2) as [Hi2' Hwt'].
    pose proof (removeExpired_I1 now1 c Hi1) as Hi1'.
    pose proof (removeExpired_lookup_None now1 c k Hk) as Hk'.
    destruct (evict_if_full _) as [[c2 t2]|] eqn:Hev; [|done].
    simplify_eq. simpl.
    destruct (evict_if_full_I2 _ _ _ Hev Hwt' Hi2') as (Hwt2 & Hi22 & Hcfg & Hlt & _).
    pose proof (evict_if_full_I1 _ _ _ Hev Hi1') as Hi12.
    pose proof (evict_if_full_lookup_None _ _ _ k Hev Hk') as Hk2.
    split_and!.
    + by apply push_new_well_typed.
    + by apply push_new_I1.
    + by apply push_new_I2.
    + simpl. by rewrite Hcfg, removeExpired_config.
Qed.

(** ** [Get] and [Del] *)

Lemma Get_absent c k now :
  items c !! k = None →
  Get c k now
  = {| value := (None, false); cache := c; trace := [EvRLock; EvRUnlock] |}.
Proof. intros Hk. unfold Get. by rewrite Hk. Qed.

Lemma Get_stale c k e now :
  items c !! k = Some e → expire (Value e) < UnixNano now →
  Get c k now
  = {| value := (None, false); cache := unlink k e c;
       trace := [EvRLock; EvWrite; EvWrite; EvWrite; EvRUnlock] |}.
Proof. intros Hk Hs. unfold Get. rewrite Hk. simpl. by rewrite decide_True. Qed.

Lemma Get_fresh c k e now :
  items c !! k = Some e → ¬ expire (Value e) < UnixNano now →
  Get c k now
  = {| value := (Object (Value e), true); cache := c;
       trace := [EvRLock; EvRUnlock] |}.
Proof. intros Hk Hs. unfold Get. rewrite Hk. simpl. by rewrite decide_False. Qed.

Lemma Del_absent c k :
  items c !! k = None →
  Del c k = {| value := false; cache := c; trace := [EvLock; EvUnlock] |}.
Proof. intros Hk. unfold Del. by rewrite Hk. Qed.

Lemma Del_present c k e :
  items c !! k = Some e →
  Del c k
  = {| value := true; cache := unlink k e c;
       trace := [EvLock; EvWrite; EvWrite; EvWrite; EvUnlock] |}.
Proof. intros Hk. unfold Del. by rewrite Hk. Qed.

Lemma unlink_invariants k e c :
  items c !! k = Some e → well_typed c → I1 c → I2 c →
  well_typed (unlink k e c) ∧ I1 (unlink k e c) ∧ I2 (unlink k e c) ∧
  config (unlink k e c) = config c.
Proof.
  intros Hk Hwt Hi1 Hi2. split_and!; [by apply unlink_well_typed| | |done].
  - by apply unlink_I1.
  - apply unlink_I2; [done..|]. apply list_elem_of_fmap_2.
    destruct Hi1 as [_ Hix]. by apply Hix in Hk as [? _].
Qed.

Lemma Get_invariants c k now :
  well_typed c → I1 c → I2 c →
  well_typed (cache (Get c k now)) ∧ I1 (cache (Get c k now)) ∧
  I2 (cache (Get c k now)) ∧ config (cache (Get c k now)) = config c.
Proof.
  intros Hwt Hi1 Hi2. destruct (items c !! k) as [e|] eqn:Hk.
  - destruct (decide (expire (Value e) < UnixNano now)) as [Hs|Hs].
    + rewrite (Get_stale c k e) by done. by apply unlink_invariants.
    + by rewrite (Get_fresh c k e).
  - by rewrite Get_absent.
Qed.

Lemma Del_invariants c k :
  well_typed c → I1 c → I2 c →
  well_typed (cache (Del c k)) ∧ I1 (cache (Del c k)) ∧
  I2 (cache (Del c k)) ∧ config (cache (Del c k)) = config c.
Proof.
  intros Hwt Hi1 Hi2. destruct (items c !! k) as [e|] eqn:Hk.
  - rewrite (Del_present c k e) by done. by apply unlink_invariants.
  - by rewrite Del_absent.
Qed.

Lemma New_invariants cfg : I1 (New (V:=V) cfg).1 ∧ I2 (New (V:=V) cfg).1.
Proof.
  split; [|done]. split; simpl; [apply NoDup_nil_2|].
  intros k e. rewrite lookup_empty, elem_of_nil. split; [done|by intros [? _]].
Qed.

Lemma New_well_typed cfg :
  in_int64 (MaxEntryLimit cfg) → well_typed (New (V:=V) cfg).1.
Proof.
  intros Hm. split; [|done]. simpl.
  unfold in_int64, int64_min, int64_max. lia.
Qed.

(** ** What I1 says about keys *)

Lemma I1_NoDup_keys c : I1 c → NoDup ((λ e, key (Value e)) <$> lst c).
Proof.
  intros [Hnd Hix]. apply NoDup_fmap_2_strong; [|by eapply NoDup_fmap_1].
  intros x y Hx Hy Hxy.
  assert (items c !! key (Value x) = Some x) as Hx' by by apply Hix.
  assert (items c !! key (Value x) = Some y) as Hy' by by apply Hix.
  congruence.
Qed.

Lemma filter_key_length {A} (f : A → string) k (l : list A) :
  NoDup (f <$> l) →
  length (filter (λ e, f e = k) l)
  = if decide (k ∈ f <$> l) then 1%nat else 0%nat.
Proof.
  induction l as [|x l IH]; [done|]. rewrite fmap_cons, NoDup_cons.
  intros [Hx Hnd]. rewrite filter_cons. specialize (IH Hnd).
  destruct (decide (f x = k)) as [<-|Hne]; simpl.
  - rewrite IH, decide_False by done. rewrite decide_True; [done|by left].
  - rewrite IH. destruct (decide (k ∈ f <$> l)) as [Hin|Hin].
    + rewrite decide_True; [done|by right].
    + rewrite decide_False; [done|]. rewrite not_elem_of_cons. naive_solver.
Qed.

Lemma I1_entries_with c k :
  I1 c → (is_Some (items c !! k) ↔ entries_with k c = 1%nat).
Proof.
  intros Hi. unfold entries_with.
  rewrite (filter_key_length (λ e, key (Value e))) by by apply I1_NoDup_keys.
  destruct Hi as [_ Hix]. case_decide as Hin; split; try done.
  - intros _. apply list_elem_of_fmap in Hin as (e & -> & He).
    exists e. by apply Hix.
  - intros [e He%Hix]. destruct Hin. destruct He as [He <-].
    by apply (list_elem_of_fmap_2 (λ e, key (Value e))).
Qed.

(** What dropping an indexed node does to a cache that satisfies the
    invariants. *)
Lemma unlink_effect k e c :
  items c !! k = Some e → well_typed c → I1 c → I2 c →
  items (unlink k e c) !! k = None ∧
  (e ∉ lst (unlink k e c)) ∧
  (∃ l1 l2, lst c = l1 ++ e :: l2 ∧ lst (unlink k e c) = l1 ++ l2) ∧
  itemCount (unlink k e c) = itemCount c - 1.
Proof.
  intros Hk Hwt [Hnd Hix] Hi2. pose proof (proj1 (Hix k e) Hk) as [He _].
  destruct (NoDup_eid_split e (lst c) Hnd He) as (l1 & l2 & Hl & H1 & H2).
  assert (Hrm : Remove e (lst c) = l1 ++ l2).
  { rewrite Hl. by apply Remove_middle. }
  split_and!; simpl.
  - apply lookup_delete_eq.
  - rewrite Hrm, elem_of_app. intros [Hin|Hin].
    + apply H1. by apply list_elem_of_fmap_2.
    + apply H2. by apply list_elem_of_fmap_2.
  - by exists l1, l2.
  - apply wrap64_id. destruct Hwt as [Hc _]. unfold I2 in Hi2.
    rewrite Hl, length_app in Hi2. simpl in Hi2.
    unfold in_int64, int64_min in *. lia.
Qed.

(** ** [Set] followed by [Get] *)

(** What [Set] on an absent key leaves: the cache after sweep and capacity
    check, with one new node at the back, indexed under [k]. *)
Lemma Set__absent_node c k x d now1 now2 r :
  items c !! k = None → Set_ c k x d now1 now2 = Some r →
  ∃ c2 t2 e,
    evict_if_full (removeExpired now1 c).1 = Some (c2, t2) ∧
    e = new_element c2 (new_pair c k x d now2) ∧
    cache r = push_new c2 (new_pair c k x d now2) ∧
    items c2 !! k = None ∧
    items (cache r) !! k = Some e ∧
    lst (cache r) = lst c2 ++ [e].
Proof.
  intros Hk Hset. rewrite Set__absent in Hset by done.
  destruct (evict_if_full _) as [[c2 t2]|] eqn:Hev; [|done].
  exists c2, t2, (new_element c2 (new_pair c k x d now2)). simplify_eq.
  split_and!; try done.
  - eapply evict_if_full_lookup_None; [done|].
    by apply removeExpired_lookup_None.
  - simpl. apply lookup_insert_eq.
Qed.

(** Dropping the node [push_new] has just added gives back the cache it was
    added to. *)
Lemma unlink_push_new c p :
  well_typed c → I2 c → itemCount c < int64_max → items c !! key p = None →
  unlink (key p) (new_element c p) (push_new c p) = c.
Proof.
  intros [Hc _] Hi Hlt Hk. set (e := new_element c p).
  assert (Hm : delete (key p) (<[key p := e]> (items c)) = items c)
    by by apply delete_insert_id.
  assert (Hl : Remove e (lst c ++ [e]) = lst c).
  { rewrite (Remove_middle e (lst c) []); [apply app_nil_r|].
    apply fresh_eid_lst. }
  assert (Hn : wrap64 (wrap64 (itemCount c + 1) - 1) = itemCount c).
  { unfold I2 in Hi.
    rewrite (wrap64_id (itemCount c + 1)), wrap64_id;
      unfold in_int64, int64_min in *; lia. }
  unfold unlink, push_new, with_lst, with_items, with_itemCount, PushBack.
  simpl. fold e. rewrite Hm, Hl, Hn. by destruct c.
Qed.


(** On a key that is already indexed, [Set] changes nothing [Get] can see:
    [Get] reports what it would have reported without the [Set]. *)
Lemma Set_present_Get_unchanged c k e x d now1 now2 now3 :
  items c !! k = Some e →
  ∃ r, Set_ c k x d now1 now2 = Some r ∧
       value (Get (cache r) k now3) = value (Get c k now3).
Proof.
  intros Hk. eexists. split; [by apply Set__present|].
  unfold Get. simpl. rewrite Hk. simpl. by case_decide.
Qed.

(** ** Runs of operations *)

Lemma removeExpired_fresh_front now c :
  well_typed c → I2 c →
  (∀ x, Front (lst c) = Some x → ¬ expire (Value x) < UnixNano now) →
  (removeExpired now c).1 = c.
Proof.
  intros Hwt Hi Hfr. rewrite removeExpired_swept by done. unfold swept.
  destruct c as [m l n cfg]. simpl in *. destruct l as [|x l]; simpl.
  - by rewrite Z.sub_0_r.
  - rewrite decide_False by by apply Hfr. simpl. by rewrite Z.sub_0_r.
Qed.

Lemma removeExpired_count_le now c :
  well_typed c → I2 c → itemCount (removeExpired now c).1 ≤ itemCount c.
Proof.
  intros Hwt Hi. rewrite removeExpired_swept by done. simpl. lia.
Qed.

Lemma Set__count_le c k x d now1 now2 r :
  Set_ c k x d now1 now2 = Some r → well_typed c → I2 c →
  itemCount c ≤ MaxEntryLimit (config c) →
  itemCount (cache r) ≤ MaxEntryLimit (config c).
Proof.
  intros Hset Hwt Hi Hle. destruct (items c !! k) as [e|] eqn:Hk.
  - erewrite Set__present in Hset by done. by simplify_eq.
  - destruct (Set__absent_node _ _ _ _ _ _ _ Hk Hset)
      as (c2 & t2 & e & Hev & _ & -> & _).
    destruct (removeExpired_I2 now1 c Hwt Hi) as [Hi1 Hwt1].
    pose proof (removeExpired_count_le now1 c Hwt Hi) as Hle1.
    destruct (evict_if_full_I2 _ _ _ Hev Hwt1 Hi1)
      as ([[Hlo _] _] & _ & _ & Hlt & Hmax).
    rewrite removeExpired_config in Hmax. simpl.
    rewrite wrap64_id; [lia|]. unfold in_int64, int64_min in *. lia.
Qed.

Lemma unlink_count_le k e c :
  items c !! k = Some e → well_typed c → I1 c → I2 c →
  itemCount (unlink k e c) ≤ itemCount c.
Proof.
  intros Hk Hwt Hi1 Hi2.
  destruct (unlink_effect k e c Hk Hwt Hi1 Hi2) as (_ & _ & _ & ->). lia.
Qed.

Lemma reachable_invariants cfg c :
  in_int64 (MaxEntryLimit cfg) → reachable cfg c →
  config c = cfg ∧ well_typed c ∧ I1 c ∧ I2 c.
Proof.
  intros Hint Hr. induction Hr as
    [|c k x d now1 now2 r _ (Hcfg & Hwt & Hi1 & Hi2) Hset
     |c k now _ (Hcfg & Hwt & Hi1 & Hi2)
     |c k _ (Hcfg & Hwt & Hi1 & Hi2)].
  - destruct (New_invariants cfg) as [Hi1 Hi2].
    split_and!; [done|by apply New_well_typed|done|done].
  - destruct (Set__invariants _ _ _ _ _ _ _ Hset Hwt Hi1 Hi2)
      as (Hwt' & Hi1' & Hi2' & Hcfg').
    split_and!; [congruence|done..].
  - destruct (Get_invariants c k now Hwt Hi1 Hi2)
      as (Hwt' & Hi1' & Hi2' & Hcfg').
    split_and!; [congruence|done..].
  - destruct (Del_invariants c k Hwt Hi1 Hi2)
      as (Hwt' & Hi1' & Hi2' & Hcfg').
    split_and!; [congruence|done..].
Qed.

Lemma reachable_count_le cfg c :
  1 ≤ MaxEntryLimit cfg → in_int64 (MaxEntryLimit cfg) →
  reachable cfg c → itemCount c ≤ MaxEntryLimit cfg.
Proof.
  intros Hmax Hint Hr. induction Hr as
    [|c k x d now1 now2 r Hr Hle Hset|c k now Hr Hle|c k Hr Hle].
  - simpl. lia.
  - destruct (reachable_invariants cfg c Hint Hr) as (Hcfg & Hwt & _ & Hi2).
    rewrite <- Hcfg. eapply Set__count_le; [done..|]. by rewrite Hcfg.
  - destruct (reachable_invariants cfg c Hint Hr) as (_ & Hwt & Hi1 & Hi2).
    destruct (items c !! k) as [e|] eqn:Hk; [|by rewrite Get_absent].
    destruct (decide (expire (Value e) < UnixNano now)) as [Hs|Hs].
    + rewrite (Get_stale c k e) by done. simpl.
      pose proof (unlink_count_le k e c Hk Hwt Hi1 Hi2). simpl in *. lia.
    + by rewrite (Get_fresh c k e).
  - destruct (reachable_invariants cfg c Hint Hr) as (_ & Hwt & Hi1 & Hi2).
    destruct (items c !! k) as [e|] eqn:Hk; [|by rewrite Del_absent].
    rewrite (Del_present c k e) by done. simpl.
    pose proof (unlink_count_le k e c Hk Hwt Hi1 Hi2). simpl in *. lia.
Qed.

Lemma keys_of_length l : length (keys_of l) = length l.
Proof. unfold keys_of. apply length_fmap. Qed.

Lemma I1_lookup_None_keys c k :
  I1 c → k ∉ keys_of (lst c) → items c !! k = None.
Proof.
  intros [_ Hix] Hk. destruct (items c !! k) as [e|] eqn:He; [|done].
  apply Hix in He as [He <-]. destruct Hk.
  by apply (list_elem_of_fmap_2 (λ e, key (Value e))).
Qed.

(** A run of [Set] calls on distinct keys that are not in the cache, with no
    node stale at any sweep: the list ends up holding the last
    [MaxEntryLimit] keys, oldest first. *)
Lemma SetAll_fresh_keys cfg calls c :
  config c = cfg → 1 ≤ MaxEntryLimit cfg →
  well_typed c → I1 c → I2 c → itemCount c ≤ MaxEntryLimit cfg →
  NoDup (keys_of (lst c) ++ (call_key <$> calls)) →
  (∀ y o, y ∈ lst c → o ∈ calls →
          ¬ expire (Value y) < UnixNano (call_now1 o)) →
  no_expiry cfg calls →
  ∃ c', SetAll c calls = Some c' ∧ config c' = cfg ∧
        well_typed c' ∧ I1 c' ∧ I2 c' ∧
        keys_of (lst c')
        = drop (length (keys_of (lst c) ++ (call_key <$> calls))
                - Z.to_nat (MaxEntryLimit cfg))
               (keys_of (lst c) ++ (call_key <$> calls)).
Proof.
  intros Hcfg Hmax. revert c Hcfg.
  induction calls as [|o calls IH];
    intros c Hcfg Hwt Hi1 Hi2 Hle Hnd Hfresh Hexp.
  { exists c. split_and!; try done. rewrite app_nil_r, keys_of_length.
    unfold I2 in Hi2.
    replace (length (lst c) - Z.to_nat (MaxEntryLimit cfg))%nat with O by lia.
    done. }
  set (k := call_key o). rewrite fmap_cons in Hnd |- *. fold k in Hnd |- *.
  assert (Hk : items c !! k = None).
  { apply I1_lookup_None_keys; [done|]. intros Hin.
    apply NoDup_app in Hnd as (_ & Hdisj & _). apply (Hdisj _ Hin). by left. }
  assert (Hsw : (removeExpired (call_now1 o) c).1 = c).
  { apply removeExpired_fresh_front; [done..|]. intros y Hy.
    apply Hfresh; [by eapply head_Some_elem_of|by left]. }
  assert (Hmaxc : 1 ≤ MaxEntryLimit (config c)) by by rewrite Hcfg.
  destruct (Set__returns c k (call_val o) (call_ttl o) (call_now1 o)
              (call_now2 o) Hmaxc Hwt Hi2) as (r & Hset & _).
  destruct (Set__absent_node _ _ _ _ _ _ _ Hk Hset)
    as (c2 & t2 & e & Hev & He & _ & _ & _ & Hl).
  rewrite Hsw in Hev.
  destruct (Set__invariants _ _ _ _ _ _ _ Hset Hwt Hi1 Hi2)
    as (Hwt' & Hi1' & Hi2' & Hcfg').
  pose proof (Set__count_le _ _ _ _ _ _ _ Hset Hwt Hi2) as Hle'.
  rewrite Hcfg in Hle'. specialize (Hle' Hle).
  assert (Hkeys : keys_of (lst (cache r)) = keys_of (lst c2) ++ [k]).
  { rewrite Hl. unfold keys_of. rewrite fmap_app. by subst e. }
  assert (Hexp_e : expire (Value e) = call_expire cfg o).
  { subst e. simpl. unfold call_expire, ttl. by rewrite Hcfg. }
  assert (Hsub : ∀ y, y ∈ lst c2 → y ∈ lst c).
  { apply evict_if_full_cases in Hev
      as [(_ & -> & _)|(_ & y0 & l & Hlc & -> & _)]; [done|].
    intros y. simpl. rewrite Hlc, Remove_head. by right. }
  assert (Hnd' : NoDup (keys_of (lst (cache r)) ++ (call_key <$> calls))).
  { rewrite Hkeys, <- app_assoc. simpl.
    apply evict_if_full_cases in Hev
      as [(_ & -> & _)|(_ & y0 & l & Hlc & -> & _)]; [done|].
    simpl. rewrite Hlc, Remove_head. rewrite Hlc in Hnd. simpl in Hnd.
    by apply NoDup_cons in Hnd as [_ ?]. }
  destruct (IH (cache r)) as (c' & Hall & Hc' & Hwtc & Hi1c & Hi2c & Hkc);
    try done.
  { congruence. }
  { intros y o' Hy Ho'. rewrite Hl, elem_of_app, list_elem_of_singleton in Hy.
    destruct Hy as [Hy | ->].
    - apply Hfresh; [by apply Hsub|by right].
    - rewrite Hexp_e. apply Hexp; [by left|by right]. }
  { intros o1 o2 Ho1 Ho2. apply Hexp; by right. }
  exists c'. cbn [SetAll]. fold k. rewrite Hset. split_and!; try done.
  rewrite Hkc, Hkeys, <- app_assoc, <- cons_middle.
  apply evict_if_full_cases in Hev
    as [(_ & -> & _)|(Hfull & y0 & l & Hlc & -> & _)]; [done|].
  cbn [unlink with_lst with_items with_itemCount lst].
  rewrite Hlc, Remove_head.
  change (keys_of (y0 :: l)) with (key (Value y0) :: keys_of l).
  rewrite <- app_comm_cons.
  set (L := keys_of l ++ k :: (call_key <$> calls)).
  change (length (key (Value y0) :: L)) with (S (length L)).
  assert (HL : (Z.to_nat (MaxEntryLimit cfg) ≤ length L)%nat).
  { subst L. rewrite length_app, keys_of_length. unfold I2 in Hi2.
    rewrite Hlc in Hi2. simpl in *. rewrite Hcfg in Hfull. lia. }
  replace (S (length L) - Z.to_nat (MaxEntryLimit cfg))%nat
    with (S (length L - Z.to_nat (MaxEntryLimit cfg))) by lia.
  done.
Qed.

(** ** Lock discipline *)

Lemma writes_exclusive_writes ws t :
  Forall (λ ev, ev = EvWrite) ws →
  writes_exclusive Exclusive (ws ++ t) = writes_exclusive Exclusive t.
Proof. induction 1 as [|ev ws -> _ IH]; [done|]. simpl. exact IH. Qed.

Lemma removeExpired_loop_trace fuel e c :
  Forall (λ ev, ev = EvWrite) (removeExpired_loop fuel e c).2.
Proof.
  revert c. induction fuel as [|fuel IH]; intros c; simpl; [done|].
  destruct (Front (lst c)) as [x|]; [|done]. simpl.
  case_decide; [|done]. simpl. repeat constructor. apply IH.
Qed.

Lemma evict_if_full_trace c c2 t2 :
  evict_if_full c = Some (c2, t2) → Forall (λ ev, ev = EvWrite) t2.
Proof.
  intros [(_ & _ & ->)|(_ & x & l & _ & _ & ->)]%evict_if_full_cases;
    repeat constructor.
Qed.

(** [Set] and [Del] write under the write lock only. *)
Lemma Set__trace_exclusive c k x d now1 now2 r :
  Set_ c k x d now1 now2 = Some r → writes_exclusive Free (trace r) = true.
Proof.
  intros Hset. destruct (items c !! k) as [e|] eqn:Hk.
  - erewrite Set__present in Hset by done. by simplify_eq.
  - rewrite Set__absent in Hset by done.
    destruct (evict_if_full _) as [[c2 t2]|] eqn:Hev; [|done].
    simplify_eq. simpl.
    rewrite writes_exclusive_writes
      by apply removeExpired_loop_trace.
    rewrite writes_exclusive_writes by by eapply evict_if_full_trace.
    done.
Qed.

Lemma Del_trace_exclusive c k : writes_exclusive Free (trace (Del c k)) = true.
Proof. unfold Del. by destruct (items c !! k). Qed.

(** [Get] on a stale key performs its three writes between [RLock] and
    [RUnlock]. *)
Lemma Get_stale_trace c k e now :
  items c !! k = Some e → expire (Value e) < UnixNano now →
  trace (Get c k now) = [EvRLock; EvWrite; EvWrite; EvWrite; EvRUnlock] ∧
  writes_exclusive Free (trace (Get c k now)) = false.
Proof. intros Hk Hs. by rewrite (Get_stale c k e). Qed.

(** ** The contracts *)

(** C2: [Set] on a key that is already indexed only moves that key's node to
    the back of the list: the node keeps its object and its [expire] (the
    new value and duration are not used), [items], [itemCount] and [config]
    are as before, the other nodes keep their relative order, and the only
    write is the move, so neither the sweep nor the capacity eviction runs,
    whatever the clock and the count are. *)
Theorem Set_present_only_moves c k e x d now1 now2 :
  items c !! k = Some e →
  ∃ r, Set_ c k x d now1 now2 = Some r ∧
    items (cache r) = items c ∧
    items (cache r) !! k = Some e ∧
    itemCount (cache r) = itemCount c ∧
    config (cache r) = config c ∧
    lst (cache r) = MoveToBack e (lst c) ∧
    trace r = [EvLock; EvWrite; EvUnlock] ∧
    (I1 c →
       ∃ l1 l2, lst c = l1 ++ e :: l2 ∧ lst (cache r) = l1 ++ l2 ++ [e]).
Proof.
  intros Hk. eexists. split; [by apply Set__present|]. simpl.
  split_and!; try done. intros [Hnd Hix].
  pose proof (proj1 (Hix k e) Hk) as [He _].
  destruct (NoDup_eid_split e (lst c) Hnd He) as (l1 & l2 & Hl & H1 & _).
  exists l1, l2. split; [done|]. rewrite Hl. by apply MoveToBack_middle.
Qed.

(** C3: with [MaxEntryLimit] = N at least 1, N + 1 calls of [Set] on
    distinct keys, starting from the cache [New] builds and with no node
    stale at any sweep of the run, leave exactly N nodes (the keys of the
    last N calls), and [Get] no longer finds the key inserted first; in every
    cache the public operations can build, and so after every [Set],
    [itemCount] and the number of nodes are at most [MaxEntryLimit]; and
    [Set] on an absent key drops the front node whenever the count after the
    sweep is at least [MaxEntryLimit]. *)
Theorem capacity_bound cfg :
  1 ≤ MaxEntryLimit cfg → in_int64 (MaxEntryLimit cfg) →
  (∀ o0 rest,
     Z.of_nat (length (o0 :: rest)) = MaxEntryLimit cfg + 1 →
     NoDup (call_key <$> o0 :: rest) →
     no_expiry cfg (o0 :: rest) →
     ∃ c', SetAll (New cfg).1 (o0 :: rest) = Some c' ∧
           itemCount c' = MaxEntryLimit cfg ∧
           Z.of_nat (length (lst c')) = MaxEntryLimit cfg ∧
           keys_of (lst c') = call_key <$> rest ∧
           items c' !! call_key o0 = None ∧
           ∀ now, value (Get c' (call_key o0) now) = (None, false)) ∧
  (∀ c, reachable cfg c →
        itemCount c ≤ MaxEntryLimit cfg ∧
        Z.of_nat (length (lst c)) ≤ MaxEntryLimit cfg) ∧
  (∀ c k x d now1 now2, reachable cfg c →
     ∃ r, Set_ c k x d now1 now2 = Some r ∧
          itemCount (cache r) ≤ MaxEntryLimit cfg ∧
          (items c !! k = None →
           MaxEntryLimit cfg ≤ itemCount (removeExpired now1 c).1 →
           ∃ y l e, lst (removeExpired now1 c).1 = y :: l ∧
                    lst (cache r) = l ++ [e])).
Proof.
  intros Hmax Hint. split_and!.
  - intros o0 rest Hlen Hnd Hexp.
    destruct (New_invariants cfg) as [Hi1 Hi2].
    destruct (SetAll_fresh_keys cfg (o0 :: rest) (New cfg).1)
      as (c' & Hall & Hcfg & Hwt & Hi1' & Hi2' & Hkeys);
      [done|done|by apply New_well_typed|done|done|simpl; lia|done| |done|].
    { intros y o Hy. simpl in Hy. by apply elem_of_nil in Hy. }
    change (keys_of (lst (New cfg).1) ++ (call_key <$> o0 :: rest))
      with (call_key <$> o0 :: rest) in Hkeys.
    rewrite length_fmap, fmap_cons in Hkeys. cbn [length] in Hkeys, Hlen.
    replace (S (length rest) - Z.to_nat (MaxEntryLimit cfg))%nat
      with 1%nat in Hkeys by lia.
    cbn [drop] in Hkeys. rewrite drop_0 in Hkeys.
    assert (Hn : Z.of_nat (length (lst c')) = MaxEntryLimit cfg).
    { rewrite <- keys_of_length, Hkeys, length_fmap. lia. }
    assert (Hk0 : items c' !! call_key o0 = None).
    { apply I1_lookup_None_keys; [done|]. rewrite Hkeys.
      rewrite fmap_cons in Hnd. by apply NoDup_cons in Hnd as [? _]. }
    exists c'. split_and!; try done.
    + by rewrite Hi2'.
    + intros now. by rewrite Get_absent.
  - intros c Hr.
    destruct (reachable_invariants cfg c Hint Hr) as (_ & _ & _ & Hi2).
    pose proof (reachable_count_le cfg c Hmax Hint Hr) as Hle.
    split; [done|]. by rewrite <- Hi2.
  - intros c k x d now1 now2 Hr.
    destruct (reachable_invariants cfg c Hint Hr) as (Hcfg & Hwt & Hi1 & Hi2).
    pose proof (reachable_count_le cfg c Hmax Hint Hr) as Hle.
    destruct (Set__returns c k x d now1 now2) as (r & Hset & _);
      [by rewrite Hcfg|done..|].
    exists r. split_and!; [done| |].
    + rewrite <- Hcfg. eapply Set__count_le; [done..|]. by rewrite Hcfg.
    + intros Hk Hfull.
      destruct (Set__absent_node _ _ _ _ _ _ _ Hk Hset)
        as (c2 & t2 & e & Hev & _ & _ & _ & _ & Hl).
      apply evict_if_full_cases in Hev
        as [(Hlt & _)|(_ & y & l & Hy & -> & _)].
      * rewrite removeExpired_config, Hcfg in Hlt. lia.
      * exists y, l, e. split; [done|]. rewrite Hl. simpl.
        by rewrite Hy, Remove_head.
Qed.

(** C4: the sweep [removeExpired] only ever looks at the front.  With [n] the
    number of leading stale nodes, it drops exactly those [n] nodes from the
    list, deletes their keys from the index and lowers [itemCount] by [n];
    what it leaves has an empty list or a front that is not stale; a cache
    whose front is not stale is left as it is, stale nodes behind the front
    included; and [Set] on an absent key starts from the swept cache. *)
Theorem removeExpired_front_only now c :
  well_typed c → I2 c →
  let e := UnixNano now in
  let n := stale_front e (lst c) in
  let c' := (removeExpired now c).1 in
  lst c' = drop n (lst c) ∧
  items c' = foldl (λ m x, delete (key (Value x)) m) (items c)
               (take n (lst c)) ∧
  itemCount c' = itemCount c - Z.of_nat n ∧
  config c' = config c ∧
  (∀ x, x ∈ take n (lst c) → expire (Value x) < e) ∧
  (∀ x, Front (lst c') = Some x → ¬ expire (Value x) < e) ∧
  (∀ x l, lst c = x :: l → ¬ expire (Value x) < e → c' = c) ∧
  (∀ k x d now2 r,
     items c !! k = None → Set_ c k x d now now2 = Some r →
     ∃ c2 t2, evict_if_full c' = Some (c2, t2) ∧
              cache r = push_new c2 (new_pair c k x d now2)).
Proof.
  intros Hwt Hi e n c'. subst c'. rewrite removeExpired_swept by done.
  fold e. unfold swept. fold n. simpl. split_and!; try done.
  - intros x. apply stale_front_take.
  - intros x. apply stale_front_drop.
  - intros x l Hl Hx. subst n. destruct c as [m l' cnt cfg]. simpl in *.
    subst l'. simpl. rewrite decide_False by done. simpl.
    by rewrite Z.sub_0_r.
  - intros k x d now2 r Hk Hset. rewrite Set__absent in Hset by done.
    rewrite removeExpired_swept in Hset by done. fold e in Hset.
    unfold swept in Hset. fold n in Hset.
    destruct (evict_if_full _) as [[c2 t2]|]; [|done].
    exists c2, t2. by simplify_eq.
Qed.

(** C5: [Get] on an absent key reports (nil, false) and leaves the cache as
    it was; on a present key whose [expire] is before the clock reading it
    takes the node out of the index and the list, lowers [itemCount] by one
    and reports (nil, false); on a present key that is not stale it reports
    the stored object with [true] and leaves the cache as it was. *)
Theorem Get_three_cases c k now :
  (items c !! k = None →
     value (Get c k now) = (None, false) ∧ cache (Get c k now) = c) ∧
  (∀ e, items c !! k = Some e → expire (Value e) < UnixNano now →
     value (Get c k now) = (None, false) ∧
     items (cache (Get c k now)) = delete k (items c) ∧
     lst (cache (Get c k now)) = Remove e (lst c) ∧
     itemCount (cache (Get c k now)) = wrap64 (itemCount c - 1) ∧
     config (cache (Get c k now)) = config c ∧
     (well_typed c → I1 c → I2 c →
        items (cache (Get c k now)) !! k = None ∧
        (e ∉ lst (cache (Get c k now))) ∧
        (∃ l1 l2, lst c = l1 ++ e :: l2 ∧
                  lst (cache (Get c k now)) = l1 ++ l2) ∧
        itemCount (cache (Get c k now)) = itemCount c - 1)) ∧
  (∀ e, items c !! k = Some e → ¬ expire (Value e) < UnixNano now →
     value (Get c k now) = (Object (Value e), true) ∧
     cache (Get c k now) = c).
Proof.
  split_and!.
  - intros Hk. by rewrite Get_absent.
  - intros e Hk Hs. rewrite (Get_stale c k e) by done. simpl.
    split_and!; try done. intros Hwt Hi1 Hi2.
    by apply (unlink_effect k e c).
  - intros e Hk Hs. by rewrite (Get_fresh c k e).
Qed.

(** C6: I1 and I2 hold in the cache [New] builds and every public operation
    keeps them: [Set] whenever it returns (and it returns when
    [MaxEntryLimit] is at least 1), [Get] and [Del] always; so they hold in
    every cache a sequential program can build.  I1 gives that a key is
    indexed exactly when one node of the list holds it and that the index
    maps the key to that very node; I2 that [itemCount] is the number of
    nodes. *)
Theorem invariants_preserved cfg :
  (I1 (New (V:=V) cfg).1 ∧ I2 (New (V:=V) cfg).1) ∧
  (∀ c, well_typed c → I1 c → I2 c →
     (∀ k, (is_Some (items c !! k) ↔ entries_with k c = 1%nat) ∧
           (∀ e, items c !! k = Some e → e ∈ lst c ∧ key (Value e) = k)) ∧
     itemCount c = Z.of_nat (length (lst c)) ∧
     (∀ k x d now1 now2,
        (1 ≤ MaxEntryLimit (config c) → is_Some (Set_ c k x d now1 now2)) ∧
        (∀ r, Set_ c k x d now1 now2 = Some r →
              well_typed (cache r) ∧ I1 (cache r) ∧ I2 (cache r))) ∧
     (∀ k now,
        well_typed (cache (Get c k now)) ∧ I1 (cache (Get c k now)) ∧
        I2 (cache (Get c k now))) ∧
     (∀ k,
        well_typed (cache (Del c k)) ∧ I1 (cache (Del c k)) ∧
        I2 (cache (Del c k)))) ∧
  (in_int64 (MaxEntryLimit cfg) →
   ∀ c, reachable cfg c → well_typed c ∧ I1 c ∧ I2 c).
Proof.
  split_and!; [apply New_invariants..| |].
  - intros c Hwt Hi1 Hi2. split_and!.
    + intros k. split; [by apply I1_entries_with|].
      intros e He. by apply Hi1.
    + exact Hi2.
    + intros k x d now1 now2. split.
      * intros Hmax.
        destruct (Set__returns c k x d now1 now2 Hmax Hwt Hi2)
          as (r & -> & _).
        by eexists.
      * intros r Hr.
        destruct (Set__invariants _ _ _ _ _ _ _ Hr Hwt Hi1 Hi2)
          as (?&?&?&_).
        done.
    + intros k now.
      destruct (Get_invariants c k now Hwt Hi1 Hi2) as (?&?&?&_). done.
    + intros k. destruct (Del_invariants c k Hwt Hi1 Hi2) as (?&?&?&_). done.
  - intros Hint c Hr.
    destruct (reachable_invariants cfg c Hint Hr) as (_ & ? & ? & ?). done.
Qed.

(** C7: with [MaxEntryLimit] at least 1 and I2, [Set] does not fail.  The
    capacity branch is entered only with [itemCount] at least
    [MaxEntryLimit], so the list has a front and [removeOldest] does not
    dereference nil; [Set] returns the nil error; [New] returns the nil error
    too. *)
Theorem Set_never_fails c k x d now1 now2 :
  1 ≤ MaxEntryLimit (config c) → well_typed c → I2 c →
  (∃ r, Set_ c k x d now1 now2 = Some r ∧ value r = None) ∧
  (∀ c1, I2 c1 → 1 ≤ MaxEntryLimit (config c1) →
         MaxEntryLimit (config c1) ≤ itemCount c1 →
         is_Some (Front (lst c1)) ∧ is_Some (removeOldest c1)) ∧
  (let c1 := (removeExpired now1 c).1 in
   I2 c1 ∧ config c1 = config c ∧ is_Some (evict_if_full c1)) ∧
  (∀ cfg : Config, (New (V:=V) cfg).2 = None).
Proof.
  intros Hmax Hwt Hi. split_and!.
  - by apply Set__returns.
  - intros c1 Hi1 Hmax1 Hfull. destruct (lst c1) as [|y l] eqn:Hl.
    + unfold I2 in Hi1. rewrite Hl in Hi1. simpl in Hi1. lia.
    + split; [by eexists|]. by erewrite removeOldest_cons.
  - destruct (removeExpired_I2 now1 c Hwt Hi) as [Hi1 _].
    split_and!; [done|apply removeExpired_config|].
    apply evict_if_full_returns; [|done]. by rewrite removeExpired_config.
  - done.
Qed.

(** C8: [Del] on an absent key returns [false] and leaves index, list and
    count as they were; on a present key it takes the node out of the index
    and the list, lowers [itemCount] by one and returns [true]; a second
    [Del] of the same key right after returns [false]. *)
Theorem Del_contract c k :
  (items c !! k = None →
     value (Del c k) = false ∧ cache (Del c k) = c) ∧
  (∀ e, items c !! k = Some e →
     value (Del c k) = true ∧
     items (cache (Del c k)) = delete k (items c) ∧
     lst (cache (Del c k)) = Remove e (lst c) ∧
     itemCount (cache (Del c k)) = wrap64 (itemCount c - 1) ∧
     config (cache (Del c k)) = config c ∧
     value (Del (cache (Del c k)) k) = false ∧
     cache (Del (cache (Del c k)) k) = cache (Del c k) ∧
     (well_typed c → I1 c → I2 c →
        (e ∉ lst (cache (Del c k))) ∧
        (∃ l1 l2, lst c = l1 ++ e :: l2 ∧
                  lst (cache (Del c k)) = l1 ++ l2) ∧
        itemCount (cache (Del c k)) = itemCount c - 1)) ∧
  value (Del (cache (Del c k)) k) = false.
Proof.
  assert (Hgone : items (cache (Del c k)) !! k = None).
  { destruct (items c !! k) as [e|] eqn:Hk.
    - rewrite (Del_present c k e) by done. simpl. apply lookup_delete_eq.
    - by rewrite Del_absent. }
  split_and!.
  - intros Hk. by rewrite Del_absent.
  - intros e Hk. rewrite (Del_absent (cache (Del c k))) by done.
    rewrite (Del_present c k e) by done. simpl.
    split_and!; try done. intros Hwt Hi1 Hi2.
    by apply (unlink_effect k e c).
  - by rewrite (Del_absent (cache (Del c k))).
Qed.

(** C10: the configured default replaces the duration exactly when the
    argument is zero.  For an absent key, [Set] appends a node holding the
    given object whose [expire] is the clock reading plus [Expiration] when
    [d] is zero and plus [d] itself otherwise; for a negative [d], with
    the clock at or after the epoch and within [int64] nanoseconds, that
    instant is before the reading, so a [Get] at the same or a later reading
    reports (nil, false) and takes the node out again. *)
Theorem Set_negative_ttl_expires_at_once c k x d now1 now2 now3 :
  items c !! k = None →
  1 ≤ MaxEntryLimit (config c) → well_typed c → I2 c →
  ∃ r e,
    Set_ c k x d now1 now2 = Some r ∧
    items (cache r) !! k = Some e ∧
    last (lst (cache r)) = Some e ∧
    Object (Value e) = x ∧ key (Value e) = k ∧
    (d = 0 →
       expire (Value e) = UnixNano (Add now2 (Expiration (config c)))) ∧
    (d ≠ 0 → expire (Value e) = UnixNano (Add now2 d)) ∧
    (d < 0 → in_int64 d → 0 ≤ now2 → now2 ≤ now3 → in_int64 now3 →
       expire (Value e) = now2 + d ∧
       expire (Value e) < UnixNano now2 ∧
       value (Get (cache r) k now3) = (None, false) ∧
       items (cache (Get (cache r) k now3)) !! k = None ∧
       lst (cache r) = lst (cache (Get (cache r) k now3)) ++ [e] ∧
       itemCount (cache (Get (cache r) k now3)) = itemCount (cache r) - 1).
Proof.
  intros Hk Hmax Hwt Hi.
  destruct (Set__returns c k x d now1 now2 Hmax Hwt Hi) as (r & Hset & _).
  destruct (Set__absent_node _ _ _ _ _ _ _ Hk Hset)
    as (c2 & t2 & e & Hev & He & Hr & Hk2 & Hke & Hl).
  exists r, e. split_and!; try done.
  - rewrite Hl. apply last_snoc.
  - by subst e.
  - by subst e.
  - intros ->. subst e. simpl. unfold ttl. by rewrite decide_True.
  - intros Hd. subst e. simpl. unfold ttl. by rewrite decide_False.
  - intros Hneg Hd H2 H23 H3.
    assert (Hexp : expire (Value e) = now2 + d).
    { subst e. simpl. unfold ttl. rewrite decide_False by lia.
      unfold UnixNano, Add. apply wrap64_id.
      unfold in_int64, int64_min, int64_max in *. lia. }
    assert (Hn2 : UnixNano now2 = now2).
    { apply wrap64_id. unfold in_int64, int64_min, int64_max in *. lia. }
    assert (Hn3 : UnixNano now3 = now3) by by apply wrap64_id.
    destruct (removeExpired_I2 now1 c Hwt Hi) as [Hi1 Hwt1].
    destruct (evict_if_full_I2 _ _ _ Hev Hwt1 Hi1)
      as (Hwt2 & Hi2 & _ & Hlt & _).
    assert (Hu : unlink k e (cache r) = c2).
    { rewrite Hr, He.
      by apply (unlink_push_new c2 (new_pair c k x d now2)). }
    rewrite (Get_stale _ _ _ _ Hke) by (rewrite Hexp, Hn3; lia).
    cbn [value cache]. rewrite Hu, Hn2, Hexp.
    split_and!; [done|lia|done|done|done|].
    rewrite Hr. simpl. rewrite wrap64_id; [lia|]. destruct Hwt2 as [Hc _].
    unfold in_int64, int64_min in *. lia.
Qed.

(** ** Further properties of the operations *)

(** After [Set] on an absent key, dropping the new node gives back the cache
    that sweep and capacity check had left. *)
Lemma Set__absent_unlink c k x d now1 now2 r :
  items c !! k = None → well_typed c → I2 c →
  Set_ c k x d now1 now2 = Some r →
  ∃ c2 t2 e,
    evict_if_full (removeExpired now1 c).1 = Some (c2, t2) ∧
    items (cache r) !! k = Some e ∧
    Value e = new_pair c k x d now2 ∧
    unlink k e (cache r) = c2 ∧
    well_typed c2 ∧ I2 c2.
Proof.
  intros Hk Hwt Hi Hset.
  destruct (Set__absent_node _ _ _ _ _ _ _ Hk Hset)
    as (c2 & t2 & e & Hev & He & Hr & Hk2 & Hke & Hl).
  destruct (removeExpired_I2 now1 c Hwt Hi) as [Hi1 Hwt1].
  destruct (evict_if_full_I2 _ _ _ Hev Hwt1 Hi1)
    as (Hwt2 & Hi2 & _ & Hlt & _).
  exists c2, t2, e. split_and!; try done.
  - by subst e.
  - rewrite Hr, He.
    by apply (unlink_push_new c2 (new_pair c k x d now2)).
Qed.


(** X2: expiry.  After [Set] on an absent key, a [Get] at a clock reading
    past the expiry reports (nil, false) and removes the node: the cache is
    again the one that sweep and capacity check of that [Set] had left. *)
Theorem Set_Get_after_expiry c k x d now1 now2 now3 :
  items c !! k = None →
  1 ≤ MaxEntryLimit (config c) → well_typed c → I2 c →
  in_int64 (Add now2 (ttl c d)) → in_int64 now3 →
  Add now2 (ttl c d) < now3 →
  ∃ r c2 t2,
    Set_ c k x d now1 now2 = Some r ∧
    evict_if_full (removeExpired now1 c).1 = Some (c2, t2) ∧
    value (Get (cache r) k now3) = (None, false) ∧
    cache (Get (cache r) k now3) = c2 ∧
    items c2 !! k = None.
Proof.
  intros Hk Hmax Hwt Hi He Hn3 Hlt.
  destruct (Set__returns c k x d now1 now2 Hmax Hwt Hi) as (r & Hset & _).
  destruct (Set__absent_unlink _ _ _ _ _ _ _ Hk Hwt Hi Hset)
    as (c2 & t2 & e & Hev & Hke & Hv & Hu & _).
  exists r, c2, t2. rewrite (Get_stale _ _ _ _ Hke).
  - simpl. rewrite Hu. split_and!; try done.
    eapply evict_if_full_lookup_None; [done|].
    by apply removeExpired_lookup_None.
  - rewrite Hv. simpl. unfold UnixNano. rewrite !wrap64_id by done. lia.
Qed.

(** X3: [Del] undoes the insertion.  After [Set] on an absent key, [Del] of
    that key returns [true] and leaves the cache that sweep and capacity
    check of that [Set] had left; a [Get] then misses. *)
Theorem Set_Del_undoes_insert c k x d now1 now2 :
  items c !! k = None →
  1 ≤ MaxEntryLimit (config c) → well_typed c → I2 c →
  ∃ r c2 t2,
    Set_ c k x d now1 now2 = Some r ∧
    evict_if_full (removeExpired now1 c).1 = Some (c2, t2) ∧
    value (Del (cache r) k) = true ∧
    cache (Del (cache r) k) = c2 ∧
    ∀ now, value (Get (cache (Del (cache r) k)) k now) = (None, false).
Proof.
  intros Hk Hmax Hwt Hi.
  destruct (Set__returns c k x d now1 now2 Hmax Hwt Hi) as (r & Hset & _).
  destruct (Set__absent_unlink _ _ _ _ _ _ _ Hk Hwt Hi Hset)
    as (c2 & t2 & e & Hev & Hke & Hv & Hu & _).
  exists r, c2, t2. rewrite (Del_present _ _ _ Hke). simpl. rewrite Hu.
  split_and!; try done. intros now. rewrite Get_absent; [done|].
  eapply evict_if_full_lookup_None; [done|].
  by apply removeExpired_lookup_None.
Qed.

(** What [Get] and [Del] return depends on the index entry of the key
    only. *)
Lemma Get_value_lookup c c' k now :
  items c !! k = items c' !! k → value (Get c k now) = value (Get c' k now).
Proof.
  intros Hl. unfold Get. rewrite Hl. destruct (items c' !! k); [|done].
  simpl. by case_decide.
Qed.

Lemma Del_value_lookup c c' k :
  items c !! k = items c' !! k → value (Del c k) = value (Del c' k).
Proof. intros Hl. unfold Del. rewrite Hl. by destruct (items c' !! k). Qed.

Lemma Get_lookup_ne c k k' now :
  k ≠ k' → items (cache (Get c k now)) !! k' = items c !! k'.
Proof.
  intros Hne. unfold Get. destruct (items c !! k) as [e|]; [|done].
  simpl. case_decide; [|done]. simpl. by rewrite lookup_delete_ne.
Qed.

Lemma Del_lookup_ne c k k' :
  k ≠ k' → items (cache (Del c k)) !! k' = items c !! k'.
Proof.
  intros Hne. unfold Del. destruct (items c !! k) as [e|]; [|done].
  simpl. by rewrite lookup_delete_ne.
Qed.

(** X4: a miss is final until the next [Set].  When [Get] reports [false]
    for a key, absent or stale, the key is out of the index afterwards: every
    later [Get] of it, at whatever clock reading, reports (nil, false)
    without touching the cache, and [Del] of it returns [false]. *)
Theorem Get_miss_is_sticky c k now :
  (value (Get c k now)).2 = false →
  items (cache (Get c k now)) !! k = None ∧
  (∀ now',
     Get (cache (Get c k now)) k now'
     = {| value := (None, false); cache := cache (Get c k now);
          trace := [EvRLock; EvRUnlock] |}) ∧
  value (Del (cache (Get c k now)) k) = false.
Proof.
  intros Hmiss.
  assert (Hgone : items (cache (Get c k now)) !! k = None).
  { unfold Get in *. destruct (items c !! k) as [e|] eqn:Hk; [|done].
    simpl in *. case_decide; [|done]. simpl. apply lookup_delete_eq. }
  split_and!; [done| |].
  - intros now'. by apply Get_absent.
  - by rewrite Del_absent.
Qed.

(** X5: [Get] and [Del] of one key leave every other key alone: the index
    entry of another key is the same node as before, so a [Get] or [Del] of
    that other key answers as it would have without the first call. *)
Theorem Get_Del_other_keys c k k' now :
  k ≠ k' →
  items (cache (Get c k now)) !! k' = items c !! k' ∧
  items (cache (Del c k)) !! k' = items c !! k' ∧
  (∀ now',
     value (Get (cache (Get c k now)) k' now') = value (Get c k' now') ∧
     value (Get (cache (Del c k)) k' now') = value (Get c k' now')) ∧
  value (Del (cache (Get c k now)) k') = value (Del c k') ∧
  value (Del (cache (Del c k)) k') = value (Del c k').
Proof.
  intros Hne.
  pose proof (Get_lookup_ne c k k' now Hne) as Hg.
  pose proof (Del_lookup_ne c k k' Hne) as Hd.
  split_and!; [done|done| | |].
  - intros now'. split; by apply Get_value_lookup.
  - by apply Del_value_lookup.
  - by apply Del_value_lookup.
Qed.

(** X7: [Set] on a key that is already indexed cannot be observed through
    [Get] or [Del]: for every key, the present one included, both answer
    after the [Set] what they would have answered before it. *)
Theorem Set_present_invisible c k e x d now1 now2 :
  items c !! k = Some e →
  ∃ r, Set_ c k x d now1 now2 = Some r ∧
       ∀ k',
         (∀ now, value (Get (cache r) k' now) = value (Get c k' now)) ∧
         value (Del (cache r) k') = value (Del c k').
Proof.
  intros Hk. eexists. split; [by apply Set__present|]. simpl.
  intros k'. split; [intros now; by apply Get_value_lookup|].
  by apply Del_value_lookup.
Qed.

(** X6: [Set] on an absent key removes nodes from the front only.  With [s]
    the number of leading stale nodes and [n] one more than [s] when the
    count left by the sweep has reached [MaxEntryLimit], the new list is the
    old one without its first [n] nodes, followed by the new node; the count
    follows; and, under I1, another key is indexed afterwards exactly when
    its node is among those kept, with the same node as before. *)
Theorem Set_absent_drops_from_front c k x d now1 now2 r :
  items c !! k = None → well_typed c → I2 c →
  Set_ c k x d now1 now2 = Some r →
  let s := stale_front (UnixNano now1) (lst c) in
  let n := if decide (MaxEntryLimit (config c) ≤ itemCount c - Z.of_nat s)
           then S s else s in
  ∃ e, lst (cache r) = drop n (lst c) ++ [e] ∧
       Value e = new_pair c k x d now2 ∧
       items (cache r) !! k = Some e ∧
       itemCount (cache r) = itemCount c - Z.of_nat n + 1 ∧
       (I1 c → ∀ k' e', k' ≠ k →
          (items (cache r) !! k' = Some e' ↔
           e' ∈ drop n (lst c) ∧ key (Value e') = k')).
Proof.
  intros Hk Hwt Hi Hset s n.
  destruct (Set__absent_node _ _ _ _ _ _ _ Hk Hset)
    as (c2 & t2 & e & Hev & He & Hr & Hk2 & Hke & Hl).
  destruct (removeExpired_I2 now1 c Hwt Hi) as [Hi1 Hwt1].
  destruct (evict_if_full_I2 _ _ _ Hev Hwt1 Hi1)
    as (Hwt2 & Hi2 & _ & Hlt & _).
  assert (Hir : I2 (cache r)) by (rewrite Hr; by apply push_new_I2).
  assert (Hc2 : lst c2 = drop n (lst c)).
  { rewrite removeExpired_swept in Hev by done.
    apply evict_if_full_cases in Hev
      as [(Hlt' & -> & _)|(Hfull & y & l & Hy & -> & _)]; simpl in *.
    - subst n. fold s in Hlt'. by rewrite decide_False by lia.
    - fold s in Hfull, Hy |- *. subst n. rewrite decide_True by lia.
      rewrite Hy, Remove_head.
      replace (S s) with (s + 1)%nat by lia.
      by rewrite <- drop_drop, Hy. }
  exists e. rewrite Hl, Hc2. split_and!; [done|by subst e|done| |].
  - unfold I2 in Hir, Hi. rewrite Hir, Hl, Hc2, Hi.
    rewrite length_app, length_drop. simpl.
    assert (n ≤ length (lst c))%nat; [|lia].
    destruct (decide (n ≤ length (lst c))%nat) as [|Hgt]; [done|].
    rewrite drop_ge in Hc2 by lia.
    pose proof (stale_front_le (UnixNano now1) (lst c)) as Hs. fold s in Hs.
    subst n. case_decide as Hfull; [|lia].
    rewrite removeExpired_swept in Hev by done.
    apply evict_if_full_cases in Hev
      as [(Hlt' & _)|(_ & y & l & Hy & _)]; simpl in *.
    + fold s in Hlt'. lia.
    + fold s in Hy. assert (length (drop s (lst c)) = S (length l))
        by by rewrite Hy.
      rewrite length_drop in *. lia.
  - intros HI1 k' e' Hne.
    destruct (Set__invariants _ _ _ _ _ _ _ Hset Hwt HI1 Hi)
      as (_ & [_ Hix] & _).
    rewrite Hix, Hl, Hc2, elem_of_app, list_elem_of_singleton. split.
    + intros [[Hin | ->] Hkey]; [done|]. subst e. simpl in Hkey. congruence.
    + intros [Hin Hkey]. split; [by left|done].
Qed.

Lemma stale_front_split e1 e2 l :
  e1 ≤ e2 →
  stale_front e2 l
  = (stale_front e1 l + stale_front e2 (drop (stale_front e1 l) l))%nat.
Proof.
  intros Hle. induction l as [|y l IH]; [done|]. simpl.
  destruct (decide (expire (Value y) < e1)) as [H1|H1]; simpl.
  - rewrite decide_True by lia. by rewrite IH at 1.
  - done.
Qed.

(** X8: when the nodes are in order of expiry (as they are when every entry
    was inserted with the same duration and none was refreshed), one sweep
    reclaims every stale node: no node left in the list is stale. *)
Theorem removeExpired_sorted_clears_stale now c :
  well_typed c → I2 c →
  (∀ i j y z, (i ≤ j)%nat → lst c !! i = Some y → lst c !! j = Some z →
              expire (Value y) ≤ expire (Value z)) →
  ∀ z, z ∈ lst (removeExpired now c).1 → ¬ expire (Value z) < UnixNano now.
Proof.
  intros Hwt Hi Hsorted z. rewrite removeExpired_swept by done. simpl.
  set (n := stale_front (UnixNano now) (lst c)).
  intros (j & Hj)%list_elem_of_lookup_1. rewrite lookup_drop in Hj.
  destruct (drop n (lst c)) as [|h t] eqn:Hd.
  { assert (length (drop n (lst c)) = 0%nat) as Hlen by by rewrite Hd.
    rewrite length_drop in Hlen. apply lookup_lt_Some in Hj. lia. }
  assert (Hh : ¬ expire (Value h) < UnixNano now).
  { apply (stale_front_drop _ (lst c)). fold n. by rewrite Hd. }
  assert (Hh' : lst c !! (n + 0)%nat = Some h).
  { by rewrite <- lookup_drop, Hd. }
  pose proof (Hsorted (n + 0)%nat (n + j)%nat h z) as Hle.
  specialize (Hle ltac:(lia) Hh' Hj). lia.
Qed.

(** X9: sweeps compose.  A sweep at a reading followed by a sweep at the
    same or a later reading leaves the cache the later sweep alone would
    have left; in particular a second sweep at the same reading changes
    nothing. *)
Theorem removeExpired_twice now1 now2 c :
  well_typed c → I2 c → UnixNano now1 ≤ UnixNano now2 →
  (removeExpired now2 (removeExpired now1 c).1).1 = (removeExpired now2 c).1 ∧
  (removeExpired now1 (removeExpired now1 c).1).1 = (removeExpired now1 c).1.
Proof.
  intros Hwt Hi Hle.
  assert (Hgen : ∀ e1 e2, e1 ≤ e2 →
            I2 (swept e1 c) → well_typed (swept e1 c) →
            swept e2 (swept e1 c) = swept e2 c).
  { intros e1 e2 H12 _ _. unfold swept. simpl.
    rewrite (stale_front_split e1 e2 (lst c)) by done.
    set (n1 := stale_front e1 (lst c)).
    set (n2 := stale_front e2 (drop n1 (lst c))).
    rewrite <- take_take_drop, foldl_app, drop_drop. f_equal. lia. }
  destruct (removeExpired_I2 now1 c Hwt Hi) as [Hi1 Hwt1].
  rewrite !(removeExpired_swept _ (removeExpired now1 c).1) by done.
  rewrite !(removeExpired_swept _ c) in * by done.
  split; apply Hgen; (done || lia).
Qed.

(** X10: when [Set] panics.  [Set] fails, with the nil dereference in
    [removeOldest], exactly when the key is absent, the sweep has emptied the
    list and the count it left is still at least [MaxEntryLimit].  On a
    well-formed cache that needs a limit of zero or less and every node stale
    at the sweep; the first [Set] on the cache [New] builds with such a limit
    always panics. *)
Theorem Set_panics_iff c k x d now1 now2 :
  (Set_ c k x d now1 now2 = None ↔
   items c !! k = None ∧
   MaxEntryLimit (config c) ≤ itemCount (removeExpired now1 c).1 ∧
   lst (removeExpired now1 c).1 = []) ∧
  (well_typed c → I2 c → Set_ c k x d now1 now2 = None →
   MaxEntryLimit (config c) ≤ 0 ∧
   ∀ y, y ∈ lst c → expire (Value y) < UnixNano now1) ∧
  (∀ cfg, MaxEntryLimit cfg ≤ 0 →
          Set_ (New (V:=V) cfg).1 k x d now1 now2 = None).
Proof.
  assert (Hiff : ∀ c0 : ObjCache V,
    Set_ c0 k x d now1 now2 = None ↔
    items c0 !! k = None ∧
    MaxEntryLimit (config c0) ≤ itemCount (removeExpired now1 c0).1 ∧
    lst (removeExpired now1 c0).1 = []).
  { intros c0. destruct (items c0 !! k) as [e|] eqn:Hk.
    - erewrite Set__present by done. split; [done|by intros [? _]].
    - rewrite Set__absent by done. unfold evict_if_full.
      rewrite removeExpired_config.
      destruct (lst (removeExpired now1 c0).1) as [|y l] eqn:Hl.
      + case_decide.
        * rewrite removeOldest_nil by done. by split.
        * split; [done|]. intros (_ & ? & _). lia.
      + case_decide.
        * erewrite removeOldest_cons by done. split; [done|].
          by intros (_ & _ & ?).
        * split; [done|]. by intros (_ & _ & ?). }
  split_and!; [apply Hiff| |].
  - intros Hwt Hi (_ & Hfull & Hnil)%Hiff.
    rewrite removeExpired_swept in Hfull, Hnil by done. simpl in *.
    pose proof (stale_front_le (UnixNano now1) (lst c)) as Hle.
    assert (Hlen : length (drop (stale_front (UnixNano now1) (lst c)) (lst c))
                   = 0%nat) by by rewrite Hnil.
    rewrite length_drop in Hlen. unfold I2 in Hi. split; [lia|].
    intros y Hy. apply (stale_front_take _ (lst c)).
    by rewrite take_ge by lia.
  - intros cfg Hmax. apply Hiff. split_and!; [done| |done].
    change (removeExpired now1 (New cfg).1).1 with (New (V:=V) cfg).1.
    simpl. lia.
Qed.

(** X11: the index and the list have the same size.  In every cache the
    public operations can build, the number of indexed keys is the number of
    nodes and is [itemCount], which is therefore never negative, and the
    indexed keys are the keys of the nodes. *)
Theorem index_size_is_itemCount cfg c :
  in_int64 (MaxEntryLimit cfg) → reachable cfg c →
  size (items c) = length (lst c) ∧
  Z.of_nat (size (items c)) = itemCount c ∧
  0 ≤ itemCount c ∧
  (∀ k, is_Some (items c !! k) ↔ k ∈ keys_of (lst c)).
Proof.
  intros Hint Hr.
  destruct (reachable_invariants cfg c Hint Hr) as (_ & _ & Hi1 & Hi2).
  pose proof (I1_NoDup_keys c Hi1) as Hnd.
  destruct Hi1 as [_ Hix].
  set (kvs := (λ e, (key (Value e), e)) <$> lst c).
  assert (Hfst : kvs.*1 = keys_of (lst c)).
  { subst kvs. unfold keys_of. by rewrite <- list_fmap_compose. }
  assert (Hm : items c = list_to_map kvs).
  { apply map_eq. intros k. apply option_eq. intros e.
    rewrite <- elem_of_list_to_map by by rewrite Hfst.
    rewrite Hix. subst kvs. rewrite list_elem_of_fmap. split.
    - intros [He <-]. by exists e.
    - intros (e0 & [= -> ->] & He). done. }
  assert (Hsize : size (items c) = length (lst c)).
  { rewrite Hm, map_size_list_to_map by by rewrite Hfst.
    subst kvs. by rewrite length_fmap. }
  split_and!; [done|by rewrite Hsize, Hi2|rewrite Hi2; lia|].
  intros k. unfold keys_of. rewrite list_elem_of_fmap. split.
  - intros [e He]. apply Hix in He as [He <-]. by exists e.
  - intros (e & -> & He). exists e. by apply Hix.
Qed.

(** X13: a refresh protects from the next eviction.  In a full cache whose
    two oldest nodes are [e1] and [e2], [Set] on the key of [e1] followed by
    [Set] on an absent key evicts [e2], not stale, instead of [e1]: [e1] is
    still indexed, with its old object and expiry, and sits just before the
    new node; the key of [e2] is gone. *)
Theorem refresh_protects_from_eviction c e1 e2 l k3 x x3 d d3 now1 now2
    now3 now4 :
  well_typed c → I1 c → I2 c →
  lst c = e1 :: e2 :: l →
  MaxEntryLimit (config c) ≤ itemCount c →
  items c !! k3 = None →
  ¬ expire (Value e2) < UnixNano now3 →
  ∃ r1 r2 e3,
    Set_ c (key (Value e1)) x d now1 now2 = Some r1 ∧
    Set_ (cache r1) k3 x3 d3 now3 now4 = Some r2 ∧
    lst (cache r2) = l ++ [e1; e3] ∧
    items (cache r2) !! key (Value e1) = Some e1 ∧
    items (cache r2) !! key (Value e2) = None ∧
    items (cache r2) !! k3 = Some e3 ∧
    Value e3 = new_pair c k3 x3 d3 now4.
Proof.
  intros Hwt Hi1 Hi2 Hl Hfull Hk3 Hfresh.
  assert (Hk1 : items c !! key (Value e1) = Some e1) by by eapply I1_front.
  pose proof (Set__present c _ x d now1 now2 e1 Hk1) as Hset1.
  destruct (Set__invariants _ _ _ _ _ _ _ Hset1 Hwt Hi1 Hi2)
    as (Hwt1 & Hi11 & Hi21 & _).
  cbn [cache] in Hwt1, Hi11, Hi21.
  set (c1 := with_lst (MoveToBack e1 (lst c)) c) in *.
  assert (Hk3' : items c1 !! k3 = None) by exact Hk3.
  assert (Hfull' : MaxEntryLimit (config c1) ≤ itemCount c1) by exact Hfull.
  assert (Hl1 : lst c1 = e2 :: l ++ [e1]).
  { subst c1. simpl. rewrite Hl.
    apply (MoveToBack_middle e1 [] (e2 :: l)). by intros ?%elem_of_nil. }
  assert (Hsw : (removeExpired now3 c1).1 = c1).
  { apply removeExpired_fresh_front; [done..|]. rewrite Hl1.
    by intros y [= <-]. }
  assert (Hset2 : is_Some (Set_ c1 k3 x3 d3 now3 now4)).
  { rewrite Set__absent by done. rewrite Hsw. unfold evict_if_full.
    rewrite decide_True by done. by erewrite removeOldest_cons. }
  destruct Hset2 as [r2 Hset2].
  destruct (Set__absent_node _ _ _ _ _ _ _ Hk3' Hset2)
    as (c2 & t2 & e3 & Hev & He3 & Hr2 & _ & Hke3 & Hl2).
  rewrite Hsw in Hev. unfold evict_if_full in Hev.
  rewrite decide_True in Hev by done.
  erewrite removeOldest_cons in Hev by done.
  injection Hev as <- <-.
  destruct (Set__invariants _ _ _ _ _ _ _ Hset2 Hwt1 Hi11 Hi21)
    as (_ & [Hnd2 Hix2] & _).
  assert (Hl2' : lst (cache r2) = l ++ [e1; e3]).
  { rewrite Hl2. cbn [unlink with_lst with_items with_itemCount lst].
    rewrite Hl1, Remove_head. by rewrite <- app_assoc. }
  eexists _, r2, e3.
  split_and!; [exact Hset1|exact Hset2|done| | |done|by rewrite He3].
  - apply Hix2. rewrite Hl2'. split; [|done].
    apply elem_of_app. right. by left.
  - destruct (items (cache r2) !! key (Value e2)) as [e|] eqn:He; [|done].
    apply Hix2 in He as [Hin Hkey]. exfalso.
    destruct Hi1 as [Hnd Hix].
    assert (Hk2 : items c !! key (Value e2) = Some e2).
    { apply Hix. split; [|done]. rewrite Hl. right. by left. }
    rewrite Hl2' in Hin.
    apply elem_of_app in Hin as [Hin|Hin].
    + assert (items c !! key (Value e2) = Some e) as Hk2'.
      { apply Hix. split; [|done]. rewrite Hl. by do 2 right. }
      assert (e = e2) as -> by congruence.
      rewrite Hl, !fmap_cons in Hnd.
      apply NoDup_cons in Hnd as [_ Hnd].
      apply NoDup_cons in Hnd as [Hnotin _].
      apply Hnotin. by apply list_elem_of_fmap_2.
    + apply elem_of_cons in Hin as [->|Hin].
      * rewrite Hkey in Hk1.
        assert (e1 = e2) as Heq by congruence.
        rewrite Hl, !fmap_cons in Hnd.
        apply NoDup_cons in Hnd as [Hnotin _].
        apply Hnotin. rewrite Heq. by left.
      * apply list_elem_of_singleton in Hin. subst e.
        rewrite He3 in Hkey. simpl in Hkey. congruence.
Qed.

(** X14: which operations write under which lock.  [Set] and [Del] perform
    every write between [Lock] and [Unlock]; [Get] writes while holding the
    read lock exactly when the key is indexed and its node is stale, and
    otherwise performs no write at all and leaves the cache as it is. *)
Theorem lock_discipline c k x d now1 now2 now :
  (∀ r, Set_ c k x d now1 now2 = Some r →
        writes_exclusive Free (trace r) = true) ∧
  writes_exclusive Free (trace (Del c k)) = true ∧
  (writes_exclusive Free (trace (Get c k now)) = false ↔
   ∃ e, items c !! k = Some e ∧ expire (Value e) < UnixNano now) ∧
  (writes_exclusive Free (trace (Get c k now)) = true →
   trace (Get c k now) = [EvRLock; EvRUnlock] ∧ cache (Get c k now) = c).
Proof.
  split_and!.
  - intros r. apply Set__trace_exclusive.
  - apply Del_trace_exclusive.
  - destruct (items c !! k) as [e|] eqn:Hk.
    + destruct (decide (expire (Value e) < UnixNano now)) as [Hs|Hs].
      * rewrite (Get_stale c k e) by done. split; [by exists e|done].
      * rewrite (Get_fresh c k e) by done. split; [done|].
        intros (e' & [= <-] & Hs'). done.
    + rewrite Get_absent by done. split; [done|]. by intros (e' & ? & _).
  - destruct (items c !! k) as [e|] eqn:Hk.
    + destruct (decide (expire (Value e) < UnixNano now)) as [Hs|Hs].
      * by rewrite (Get_stale c k e).
      * by rewrite (Get_fresh c k e).
    + by rewrite Get_absent.
Qed.


(** A run of [Set] calls on distinct keys that are not in the cache, with no
    node stale at any sweep: the list ends up holding the last
    [MaxEntryLimit] pairs, oldest first. *)
Lemma SetAll_fresh_values cfg calls c :
  config c = cfg → 1 ≤ MaxEntryLimit cfg →
  well_typed c → I1 c → I2 c → itemCount c ≤ MaxEntryLimit cfg →
  NoDup (keys_of (lst c) ++ (call_key <$> calls)) →
  (∀ y o, y ∈ lst c → o ∈ calls →
          ¬ expire (Value y) < UnixNano (call_now1 o)) →
  no_expiry cfg calls →
  ∃ c', SetAll c calls = Some c' ∧ config c' = cfg ∧
        well_typed c' ∧ I1 c' ∧ I2 c' ∧
        Value <$> lst c'
        = drop (length ((Value <$> lst c) ++ (call_pair cfg <$> calls))
                - Z.to_nat (MaxEntryLimit cfg))
               ((Value <$> lst c) ++ (call_pair cfg <$> calls)).
Proof.
  intros Hcfg Hmax. revert c Hcfg.
  induction calls as [|o calls IH];
    intros c Hcfg Hwt Hi1 Hi2 Hle Hnd Hfresh Hexp.
  { exists c. split_and!; try done. rewrite app_nil_r, length_fmap.
    unfold I2 in Hi2.
    replace (length (lst c) - Z.to_nat (MaxEntryLimit cfg))%nat with O by lia.
    done. }
  set (k := call_key o). rewrite fmap_cons in Hnd. fold k in Hnd.
  rewrite (fmap_cons (call_pair cfg)).
  assert (Hk : items c !! k = None).
  { apply I1_lookup_None_keys; [done|]. intros Hin.
    apply NoDup_app in Hnd as (_ & Hdisj & _). apply (Hdisj _ Hin). by left. }
  assert (Hsw : (removeExpired (call_now1 o) c).1 = c).
  { apply removeExpired_fresh_front; [done..|]. intros y Hy.
    apply Hfresh; [by eapply head_Some_elem_of|by left]. }
  assert (Hmaxc : 1 ≤ MaxEntryLimit (config c)) by by rewrite Hcfg.
  destruct (Set__returns c k (call_val o) (call_ttl o) (call_now1 o)
              (call_now2 o) Hmaxc Hwt Hi2) as (r & Hset & _).
  destruct (Set__absent_node _ _ _ _ _ _ _ Hk Hset)
    as (c2 & t2 & e & Hev & He & _ & _ & _ & Hl).
  rewrite Hsw in Hev.
  destruct (Set__invariants _ _ _ _ _ _ _ Hset Hwt Hi1 Hi2)
    as (Hwt' & Hi1' & Hi2' & Hcfg').
  pose proof (Set__count_le _ _ _ _ _ _ _ Hset Hwt Hi2) as Hle'.
  rewrite Hcfg in Hle'. specialize (Hle' Hle).
  assert (Hve : Value e = call_pair cfg o).
  { subst e. simpl. unfold new_pair, call_pair, call_expire, ttl.
    by rewrite Hcfg. }
  assert (Hvals : Value <$> lst (cache r)
                  = (Value <$> lst c2) ++ [call_pair cfg o]).
  { rewrite Hl, fmap_app. simpl. by rewrite Hve. }
  assert (Hkeys : keys_of (lst (cache r)) = keys_of (lst c2) ++ [k]).
  { rewrite Hl. unfold keys_of. rewrite fmap_app. simpl. by rewrite Hve. }
  assert (Hsub : ∀ y, y ∈ lst c2 → y ∈ lst c).
  { apply evict_if_full_cases in Hev
      as [(_ & -> & _)|(_ & y0 & l & Hlc & -> & _)]; [done|].
    intros y. simpl. rewrite Hlc, Remove_head. by right. }
  assert (Hnd' : NoDup (keys_of (lst (cache r)) ++ (call_key <$> calls))).
  { rewrite Hkeys, <- app_assoc. simpl.
    apply evict_if_full_cases in Hev
      as [(_ & -> & _)|(_ & y0 & l & Hlc & -> & _)]; [done|].
    simpl. rewrite Hlc, Remove_head. rewrite Hlc in Hnd. simpl in Hnd.
    by apply NoDup_cons in Hnd as [_ ?]. }
  destruct (IH (cache r)) as (c' & Hall & Hc' & Hwtc & Hi1c & Hi2c & Hvc);
    try done.
  { congruence. }
  { intros y o' Hy Ho'. rewrite Hl, elem_of_app, list_elem_of_singleton in Hy.
    destruct Hy as [Hy | ->].
    - apply Hfresh; [by apply Hsub|by right].
    - rewrite Hve. simpl. apply Hexp; [by left|by right]. }
  { intros o1 o2 Ho1 Ho2. apply Hexp; by right. }
  exists c'. cbn [SetAll]. fold k. rewrite Hset. split_and!; try done.
  rewrite Hvc, Hvals, <- app_assoc, <- cons_middle.
  apply evict_if_full_cases in Hev
    as [(_ & -> & _)|(Hfull & y0 & l & Hlc & -> & _)]; [done|].
  cbn [unlink with_lst with_items with_itemCount lst].
  rewrite Hlc, Remove_head, fmap_cons, <- app_comm_cons.
  set (L := (Value <$> l) ++ call_pair cfg o :: (call_pair cfg <$> calls)).
  change (length (Value y0 :: L)) with (S (length L)).
  assert (HL : (Z.to_nat (MaxEntryLimit cfg) ≤ length L)%nat).
  { subst L. rewrite length_app, length_fmap. unfold I2 in Hi2.
    rewrite Hlc in Hi2. simpl in *. rewrite Hcfg in Hfull. lia. }
  replace (S (length L) - Z.to_nat (MaxEntryLimit cfg))%nat
    with (S (length L - Z.to_nat (MaxEntryLimit cfg))) by lia.
  done.
Qed.

Lemma NoDup_lookup_not_in_drop {A} (l : list A) i m a :
  NoDup l → l !! i = Some a → (i < m)%nat → a ∉ drop m l.
Proof.
  intros Hnd Hi Hlt (j & Hj)%list_elem_of_lookup_1.
  rewrite lookup_drop in Hj.
  pose proof (NoDup_lookup l i (m + j) a Hnd Hi Hj). lia.
Qed.

(** X12: first in, first out.  Any run of [Set] calls on distinct keys,
    starting from the cache [New] builds and with no node stale at any sweep
    of the run, leaves the pairs of the last [MaxEntryLimit] calls, in call
    order: [Get] finds the object of each of those calls for every clock
    reading at which its node is not stale, and misses the key of every
    earlier call. *)
Theorem SetAll_keeps_last cfg calls :
  1 ≤ MaxEntryLimit cfg → in_int64 (MaxEntryLimit cfg) →
  NoDup (call_key <$> calls) → no_expiry cfg calls →
  let m := (length calls - Z.to_nat (MaxEntryLimit cfg))%nat in
  ∃ c', SetAll (New cfg).1 calls = Some c' ∧
        Value <$> lst c' = drop m (call_pair cfg <$> calls) ∧
        itemCount c' = Z.min (Z.of_nat (length calls)) (MaxEntryLimit cfg) ∧
        (∀ i o now, calls !! i = Some o → (m ≤ i)%nat →
           ¬ call_expire cfg o < UnixNano now →
           value (Get c' (call_key o) now) = (call_val o, true)) ∧
        (∀ i o now, calls !! i = Some o → (i < m)%nat →
           value (Get c' (call_key o) now) = (None, false)).
Proof.
  intros Hmax Hint Hnd Hexp m.
  destruct (New_invariants cfg) as [Hi1 Hi2].
  destruct (SetAll_fresh_values cfg calls (New cfg).1)
    as (c' & Hall & Hcfg & Hwt & Hi1' & Hi2' & Hvals);
    [done|done|by apply New_well_typed|done|done|simpl; lia|done| |done|].
  { intros y o Hy. simpl in Hy. by apply elem_of_nil in Hy. }
  change ((Value <$> lst (New cfg).1) ++ (call_pair cfg <$> calls))
    with (call_pair cfg <$> calls) in Hvals.
  rewrite length_fmap in Hvals. fold m in Hvals.
  assert (Hkeys : keys_of (lst c') = drop m (call_key <$> calls)).
  { transitivity (key <$> (Value <$> lst c')).
    { unfold keys_of. by rewrite <- list_fmap_compose. }
    rewrite Hvals, fmap_drop, <- list_fmap_compose. reflexivity. }
  exists c'. split_and!; [done|done| | |].
  - unfold I2 in Hi2'. rewrite Hi2'.
    rewrite <- (length_fmap Value), Hvals, length_drop, length_fmap.
    subst m. lia.
  - intros i o now Ho Hmi Hfresh.
    assert (Hp : (Value <$> lst c') !! (i - m)%nat = Some (call_pair cfg o)).
    { rewrite Hvals, lookup_drop, list_lookup_fmap.
      replace (m + (i - m))%nat with i by lia. by rewrite Ho. }
    apply list_lookup_fmap_Some in Hp as (e & Hv & He).
    assert (Hk : items c' !! call_key o = Some e).
    { apply (proj2 Hi1'). split; [by eapply list_elem_of_lookup_2|].
      by rewrite <- Hv. }
    rewrite (Get_fresh _ _ _ _ Hk); [by rewrite <- Hv|]. by rewrite <- Hv.
  - intros i o now Ho Him. rewrite Get_absent; [done|].
    apply I1_lookup_None_keys; [done|]. rewrite Hkeys.
    apply (NoDup_lookup_not_in_drop _ i); [done| |done].
    by rewrite list_lookup_fmap, Ho.
Qed.

End Proofs.

(** * Concrete runs *)

Lemma cache_a_built :
  Set_ (New cfg2).1 "a" (Some 1) 5 100 100
  = Some {| value := None; cache := cache_a;
            trace := [EvLock; EvWrite; EvWrite; EvWrite; EvUnlock] |}.
Proof. vm_compute. reflexivity. Qed.

Lemma cache_ab_built :
  Set_ cache_a "b" (Some 2) 399 101 101
  = Some {| value := None; cache := cache_ab;
            trace := [EvLock; EvWrite; EvWrite; EvWrite; EvUnlock] |}.
Proof. vm_compute. reflexivity. Qed.

Lemma cfg2_ok : 1 ≤ MaxEntryLimit cfg2 ∧ in_int64 (MaxEntryLimit cfg2).
Proof. by vm_compute. Qed.

Lemma cache_a_reachable : reachable cfg2 cache_a.
Proof.
  apply (reach_Set cfg2 _ _ _ _ _ _ _ (reach_New cfg2) cache_a_built).
Qed.

Lemma cache_ab_reachable : reachable cfg2 cache_ab.
Proof.
  apply (reach_Set cfg2 _ _ _ _ _ _ _ cache_a_reachable cache_ab_built).
Qed.

Lemma cache_a_invariants : well_typed cache_a ∧ I1 cache_a ∧ I2 cache_a.
Proof.
  destruct cfg2_ok as [Hm Hi].
  destruct (reachable_invariants cfg2 cache_a Hi cache_a_reachable)
    as (_ & ? & ? & ?). done.
Qed.

Lemma cache_ab_invariants : well_typed cache_ab ∧ I1 cache_ab ∧ I2 cache_ab.
Proof.
  destruct cfg2_ok as [Hm Hi].
  destruct (reachable_invariants cfg2 cache_ab Hi cache_ab_reachable)
    as (_ & ? & ? & ?). done.
Qed.

(** C1: the round trip fails on a key that is already in the cache.  After
    [Set("a", 1, 5)] and [Set("a", 7, 5)], a [Get("a")] at the reading of the
    second [Set] returns the first object with [true], not the one just
    given; the node and its [expire] are those of the first call. *)
Theorem Set_present_Get_returns_old_value :
  (r1 ← Set_ (New cfg2).1 "a" (Some 1) 5 100 100;
   r2 ← Set_ (cache r1) "a" (Some 7) 5 101 101;
   Some (value (Get (cache r2) "a" 101), lst (cache r2)))
  = Some ((Some 1, true), [node_a]).
Proof. vm_compute. reflexivity. Qed.

(** C9: [Get] on a stale key changes [itemCount], [items] and the list while
    it holds the read lock only: the three writes lie between [RLock] and
    [RUnlock], and the cache it leaves is not the one it was given. *)
Theorem Get_stale_writes_under_read_lock :
  trace (Get cache_a "a" 200)
  = [EvRLock; EvWrite; EvWrite; EvWrite; EvRUnlock] ∧
  writes_exclusive Free (trace (Get cache_a "a" 200)) = false ∧
  value (Get cache_a "a" 200) = (None, false) ∧
  itemCount cache_a = 1 ∧
  itemCount (cache (Get cache_a "a" 200)) = 0 ∧
  lst (cache (Get cache_a "a" 200)) = [] ∧
  writes_exclusive Free (trace (Del cache_a "a")) = true.
Proof. vm_compute. by repeat split. Qed.

(** ** The theorems at concrete inputs *)

Lemma calls3_no_expiry : no_expiry cfg2 calls3.
Proof.
  intros o o' Ho Ho'. revert o' Ho'. apply Forall_forall.
  revert o Ho. apply Forall_forall.
  repeat (constructor; [repeat (constructor; [by vm_compute|])|]);
    constructor.
Qed.

(** ["a"] is refreshed at reading 300, when its node is stale and the cache
    is full: the node only moves. *)
Lemma Set_present_only_moves_witness :
  items cache_ab !! "a" = Some node_a ∧ I1 cache_ab ∧
  ∃ r, Set_ cache_ab "a" (Some 7) 0 300 300 = Some r ∧
       items (cache r) = items cache_ab ∧
       itemCount (cache r) = 2 ∧
       lst (cache r) = [node_b; node_a] ∧
       ∃ l1 l2, lst cache_ab = l1 ++ node_a :: l2 ∧
                lst (cache r) = l1 ++ l2 ++ [node_a].
Proof.
  destruct cache_ab_invariants as (_ & Hi1 & _).
  split; [reflexivity|]. split; [exact Hi1|].
  destruct (Set_present_only_moves cache_ab "a" node_a (Some 7) 0 300 300)
    as (r & Hr & Hi & _ & Hc & _ & Hl & _ & Hsplit); [reflexivity|].
  exists r. split_and!; [exact Hr|exact Hi|exact Hc|exact Hl|exact (Hsplit Hi1)].
Defined.

(** Three distinct keys into a cache of capacity two. *)
Lemma capacity_bound_witness :
  1 ≤ MaxEntryLimit cfg2 ∧ in_int64 (MaxEntryLimit cfg2) ∧
  Z.of_nat (length calls3) = MaxEntryLimit cfg2 + 1 ∧
  NoDup (call_key <$> calls3) ∧
  no_expiry cfg2 calls3 ∧
  (∃ c', SetAll (New cfg2).1 calls3 = Some c' ∧
         itemCount c' = 2 ∧
         keys_of (lst c') = ["b"; "c"] ∧
         ∀ now, value (Get c' "a" now) = (None, false)) ∧
  reachable cfg2 cache_ab ∧
  itemCount cache_ab ≤ MaxEntryLimit cfg2 ∧
  items cache_ab !! "c" = None ∧
  MaxEntryLimit cfg2 ≤ itemCount (removeExpired 102 cache_ab).1 ∧
  (∃ r, Set_ cache_ab "c" (Some 3) 0 102 102 = Some r ∧
        itemCount (cache r) ≤ MaxEntryLimit cfg2 ∧
        ∃ y l e, lst (removeExpired 102 cache_ab).1 = y :: l ∧
                 lst (cache r) = l ++ [e]).
Proof.
  destruct cfg2_ok as [Hm Hi].
  assert (Hnd : NoDup (call_key <$> calls3)) by compute_done.
  assert (Hfull : MaxEntryLimit cfg2 ≤ itemCount (removeExpired 102 cache_ab).1)
    by by vm_compute.
  destruct (capacity_bound (V:=Z) cfg2 Hm Hi) as (Hrun & Hbound & Hset).
  split_and!;
    [exact Hm|exact Hi|reflexivity|exact Hnd|exact calls3_no_expiry|
    |exact cache_ab_reachable| |reflexivity|exact Hfull|].
  - destruct (Hrun _ _
                (eq_refl : Z.of_nat (length calls3) = MaxEntryLimit cfg2 + 1)
                Hnd calls3_no_expiry)
      as (c' & Hall & Hc & _ & Hk & _ & Hg).
    exists c'. split_and!; [exact Hall|exact Hc|exact Hk|exact Hg].
  - exact (proj1 (Hbound cache_ab cache_ab_reachable)).
  - destruct (Hset cache_ab "c" (Some 3) 0 102 102 cache_ab_reachable)
      as (r & Hr & Hle & Hev).
    exists r. split_and!; [exact Hr|exact Hle|exact (Hev eq_refl Hfull)].
Defined.

(** At reading 200 the sweep of [cache_ab] drops the stale front ["a"] and
    stops at ["b"]; in [cache_ba] the front ["b"] is not stale and the stale
    ["a"] behind it stays. *)
Lemma removeExpired_front_only_witness :
  (well_typed cache_ab ∧ I2 cache_ab ∧
   lst (removeExpired 200 cache_ab).1 = [node_b] ∧
   itemCount (removeExpired 200 cache_ab).1 = 1 ∧
   expire (Value node_a) < UnixNano 200) ∧
  (well_typed cache_ba ∧ I2 cache_ba ∧
   lst cache_ba = [node_b; node_a] ∧
   ¬ expire (Value node_b) < UnixNano 200 ∧
   (removeExpired 200 cache_ba).1 = cache_ba) ∧
  (items cache_ab !! "c" = None ∧
   ∃ r c2 t2,
     Set_ cache_ab "c" (Some 3) 0 200 200 = Some r ∧
     evict_if_full (removeExpired 200 cache_ab).1 = Some (c2, t2) ∧
     cache r = push_new c2 (new_pair cache_ab "c" (Some 3) 0 200)).
Proof.
  assert (Hwt : ∀ c : ObjCache Z,
            itemCount c = 2 → config c = cfg2 → well_typed c).
  { intros c Hc Hcfg. unfold well_typed. rewrite Hc, Hcfg. by vm_compute. }
  assert (Hf : ¬ expire (Value node_b) < UnixNano 200) by by vm_compute.
  destruct (removeExpired_front_only 200 cache_ab
              (Hwt cache_ab eq_refl eq_refl) eq_refl)
    as (Hl & _ & Hc & _ & Hst & _ & _ & Hset).
  destruct (removeExpired_front_only 200 cache_ba
              (Hwt cache_ba eq_refl eq_refl) eq_refl)
    as (_ & _ & _ & _ & _ & _ & Hsame & _).
  split_and!.
  - by apply Hwt.
  - reflexivity.
  - exact Hl.
  - exact Hc.
  - apply Hst. by left.
  - by apply Hwt.
  - reflexivity.
  - reflexivity.
  - exact Hf.
  - exact (Hsame node_b [node_a] eq_refl Hf).
  - reflexivity.
  - destruct (Set_ cache_ab "c" (Some 3) 0 200 200) as [r|] eqn:Hr;
      [|by vm_compute in Hr].
    destruct (Hset "c" (Some 3) 0 200 r eq_refl Hr) as (c2 & t2 & Hev & Hc2).
    by exists r, c2, t2.
Defined.

(** [Get] on [cache_ab] at reading 200: ["z"] is absent, ["a"] is stale,
    ["b"] is fresh. *)
Lemma Get_three_cases_witness :
  (items cache_ab !! "z" = None ∧
   value (Get cache_ab "z" 200) = (None, false) ∧
   cache (Get cache_ab "z" 200) = cache_ab) ∧
  (items cache_ab !! "a" = Some node_a ∧
   expire (Value node_a) < UnixNano 200 ∧
   value (Get cache_ab "a" 200) = (None, false) ∧
   lst (cache (Get cache_ab "a" 200)) = [node_b] ∧
   itemCount (cache (Get cache_ab "a" 200)) = 1 ∧
   well_typed cache_ab ∧ I1 cache_ab ∧ I2 cache_ab ∧
   items (cache (Get cache_ab "a" 200)) !! "a" = None ∧
   itemCount (cache (Get cache_ab "a" 200)) = itemCount cache_ab - 1) ∧
  (items cache_ab !! "b" = Some node_b ∧
   ¬ expire (Value node_b) < UnixNano 200 ∧
   value (Get cache_ab "b" 200) = (Some 2, true) ∧
   cache (Get cache_ab "b" 200) = cache_ab).
Proof.
  destruct cache_ab_invariants as (Hwt & Hi1 & Hi2).
  assert (Hs : expire (Value node_a) < UnixNano 200) by by vm_compute.
  assert (Hf : ¬ expire (Value node_b) < UnixNano 200) by by vm_compute.
  destruct (Get_three_cases cache_ab "z" 200) as ((Hz1 & Hz2) & _);
    [reflexivity|].
  destruct (proj1 (proj2 (Get_three_cases cache_ab "a" 200))
              node_a eq_refl Hs) as (Ha1 & _ & Ha2 & Ha3 & _ & Hinv).
  destruct (Hinv Hwt Hi1 Hi2) as (Ha4 & _ & _ & Ha5).
  destruct (proj2 (proj2 (Get_three_cases cache_ab "b" 200))
              node_b eq_refl Hf) as (Hb1 & Hb2).
  split_and!;
    [reflexivity|exact Hz1|exact Hz2
    |reflexivity|exact Hs|exact Ha1|exact Ha2|exact Ha3
    |exact Hwt|exact Hi1|exact Hi2|exact Ha4|exact Ha5
    |reflexivity|exact Hf|exact Hb1|exact Hb2].
Defined.

Lemma invariants_preserved_witness :
  (well_typed cache_ab ∧ I1 cache_ab ∧ I2 cache_ab) ∧
  1 ≤ MaxEntryLimit (config cache_ab) ∧
  (∃ r, Set_ cache_ab "c" (Some 3) 0 200 200 = Some r ∧
        I1 (cache r) ∧ I2 (cache r)) ∧
  (I1 (cache (Get cache_ab "a" 200)) ∧ I2 (cache (Get cache_ab "a" 200))) ∧
  (I1 (cache (Del cache_ab "b")) ∧ I2 (cache (Del cache_ab "b"))) ∧
  entries_with "a" cache_ab = 1%nat ∧
  in_int64 (MaxEntryLimit cfg2) ∧ reachable cfg2 cache_a ∧
  (I1 cache_a ∧ I2 cache_a).
Proof.
  destruct cache_ab_invariants as (Hwt & Hi1 & Hi2).
  destruct cfg2_ok as [_ Hint].
  assert (Hm : 1 ≤ MaxEntryLimit (config cache_ab)) by by vm_compute.
  destruct (invariants_preserved (V:=Z) cfg2) as (_ & Hstep & Hreach).
  destruct (Hstep cache_ab Hwt Hi1 Hi2) as (Hone & _ & Hset & Hget & Hdel).
  destruct (Hreach Hint cache_a cache_a_reachable) as (_ & Ha1 & Ha2).
  split_and!;
    [exact Hwt|exact Hi1|exact Hi2|exact Hm| |apply Hget|apply Hget
    |apply Hdel|apply Hdel| |exact Hint|exact cache_a_reachable
    |exact Ha1|exact Ha2].
  - destruct (proj1 (Hset "c" (Some 3) 0 200 200) Hm) as [r Hr].
    destruct (proj2 (Hset "c" (Some 3) 0 200 200) r Hr) as (_ & Hr1 & Hr2).
    by exists r.
  - apply (proj1 (proj1 (Hone "a"))). by eexists.
Defined.

(** [Set] of a new key into the full [cache_ab]: the capacity branch runs
    and finds a front. *)
Lemma Set_never_fails_witness :
  1 ≤ MaxEntryLimit (config cache_ab) ∧ well_typed cache_ab ∧ I2 cache_ab ∧
  MaxEntryLimit (config cache_ab) ≤ itemCount cache_ab ∧
  (∃ r, Set_ cache_ab "c" (Some 3) 0 102 102 = Some r ∧ value r = None) ∧
  is_Some (removeOldest cache_ab).
Proof.
  destruct cache_ab_invariants as (Hwt & _ & Hi2).
  assert (Hm : 1 ≤ MaxEntryLimit (config cache_ab)) by by vm_compute.
  assert (Hfull : MaxEntryLimit (config cache_ab) ≤ itemCount cache_ab)
    by by vm_compute.
  destruct (Set_never_fails cache_ab "c" (Some 3) 0 102 102 Hm Hwt Hi2)
    as (Hret & Hfront & _).
  split_and!; [exact Hm|exact Hwt|exact Hi2|exact Hfull|exact Hret|].
  exact (proj2 (Hfront cache_ab Hi2 Hm Hfull)).
Defined.

Lemma Del_contract_witness :
  (items cache_ab !! "z" = None ∧
   value (Del cache_ab "z") = false ∧ cache (Del cache_ab "z") = cache_ab) ∧
  (items cache_ab !! "a" = Some node_a ∧
   value (Del cache_ab "a") = true ∧
   lst (cache (Del cache_ab "a")) = [node_b] ∧
   value (Del (cache (Del cache_ab "a")) "a") = false ∧
   well_typed cache_ab ∧ I1 cache_ab ∧ I2 cache_ab ∧
   itemCount (cache (Del cache_ab "a")) = itemCount cache_ab - 1).
Proof.
  destruct cache_ab_invariants as (Hwt & Hi1 & Hi2).
  destruct (Del_contract cache_ab "z") as ((Hz1 & Hz2) & _); [reflexivity|].
  destruct (Del_contract cache_ab "a") as (_ & Ha & Htwice).
  destruct (Ha node_a eq_refl) as (Ha1 & _ & Ha2 & _ & _ & _ & _ & Hinv).
  destruct (Hinv Hwt Hi1 Hi2) as (_ & _ & Ha3).
  split_and!;
    [reflexivity|exact Hz1|exact Hz2
    |reflexivity|exact Ha1|exact Ha2|exact Htwice
    |exact Hwt|exact Hi1|exact Hi2|exact Ha3].
Defined.

(** [Set("n", 9, -5ns)] at reading 101, then [Get("n")] at the same
    reading. *)
Lemma Set_negative_ttl_expires_at_once_witness :
  items cache_a !! "n" = None ∧
  1 ≤ MaxEntryLimit (config cache_a) ∧ well_typed cache_a ∧ I2 cache_a ∧
  -5 < 0 ∧ -5 ≠ 0 ∧ in_int64 (-5) ∧ 0 ≤ 101 ∧ 101 ≤ 101 ∧ in_int64 101 ∧
  ∃ r e, Set_ cache_a "n" (Some 9) (-5) 101 101 = Some r ∧
         items (cache r) !! "n" = Some e ∧
         expire (Value e) = UnixNano (Add 101 (-5)) ∧
         expire (Value e) = 101 + -5 ∧
         value (Get (cache r) "n" 101) = (None, false) ∧
         items (cache (Get (cache r) "n" 101)) !! "n" = None.
Proof.
  destruct cache_a_invariants as (Hwt & _ & Hi2).
  assert (Hm : 1 ≤ MaxEntryLimit (config cache_a)) by by vm_compute.
  assert (Hd : in_int64 (-5)) by by vm_compute.
  assert (Hn : in_int64 101) by by vm_compute.
  assert (Hneg : -5 < 0) by lia.
  assert (Hnz : -5 ≠ 0) by lia.
  assert (H0 : 0 ≤ 101) by lia.
  assert (H1 : 101 ≤ 101) by lia.
  destruct (Set_negative_ttl_expires_at_once cache_a "n" (Some 9) (-5)
              101 101 101 eq_refl Hm Hwt Hi2)
    as (r & e & Hset & He & _ & _ & _ & _ & Hne & Hpast).
  destruct (Hpast Hneg Hd H0 H1 Hn) as (Hexp & _ & Hget & Hgone & _).
  split_and!;
    [reflexivity|exact Hm|exact Hwt|exact Hi2|exact Hneg|exact Hnz|exact Hd
    |exact H0|exact H1|exact Hn|].
  exists r, e.
  split_and!;
    [exact Hset|exact He|exact (Hne Hnz)|exact Hexp|exact Hget|exact Hgone].
Defined.

(** ** The further properties at concrete inputs *)

Lemma cache_a_facts :
  1 ≤ MaxEntryLimit (config cache_a) ∧ well_typed cache_a ∧ I1 cache_a ∧
  I2 cache_a.
Proof.
  destruct cache_a_invariants as (? & ? & ?).
  split_and!; [by vm_compute|done..].
Qed.

Lemma cache_ab_facts :
  1 ≤ MaxEntryLimit (config cache_ab) ∧ well_typed cache_ab ∧ I1 cache_ab ∧
  I2 cache_ab.
Proof.
  destruct cache_ab_invariants as (? & ? & ?).
  split_and!; [by vm_compute|done..].
Qed.


(** The same entry read at 600, after its expiry at 500. *)
Lemma Set_Get_after_expiry_witness :
  items cache_a !! "b" = None ∧
  1 ≤ MaxEntryLimit (config cache_a) ∧ well_typed cache_a ∧ I2 cache_a ∧
  in_int64 (Add 101 (ttl cache_a 399)) ∧ in_int64 600 ∧
  Add 101 (ttl cache_a 399) < 600 ∧
  ∃ r, Set_ cache_a "b" (Some 2) 399 101 101 = Some r ∧
       value (Get (cache r) "b" 600) = (None, false) ∧
       cache (Get (cache r) "b" 600) = cache_a.
Proof.
  destruct cache_a_facts as (Hm & Hwt & _ & Hi2).
  assert (H1 : in_int64 (Add 101 (ttl cache_a 399))) by by vm_compute.
  assert (H2 : in_int64 600) by by vm_compute.
  assert (H3 : Add 101 (ttl cache_a 399) < 600) by by vm_compute.
  split_and!; [reflexivity|exact Hm|exact Hwt|exact Hi2|exact H1|exact H2
              |exact H3|].
  destruct (Set_Get_after_expiry cache_a "b" (Some 2) 399 101 101 600
              eq_refl Hm Hwt Hi2 H1 H2 H3)
    as (r & c2 & t2 & Hr & Hev & Hg & Hc & _).
  exists r. split_and!; [exact Hr|exact Hg|].
  rewrite Hc. assert (Some (c2, t2) = Some (cache_a, [])) as [= -> _];
    [|reflexivity].
  rewrite <- Hev. by vm_compute.
Defined.

Lemma Set_Del_undoes_insert_witness :
  items cache_a !! "b" = None ∧
  1 ≤ MaxEntryLimit (config cache_a) ∧ well_typed cache_a ∧ I2 cache_a ∧
  ∃ r, Set_ cache_a "b" (Some 2) 399 101 101 = Some r ∧
       value (Del (cache r) "b") = true ∧
       cache (Del (cache r) "b") = cache_a ∧
       value (Get (cache (Del (cache r) "b")) "b" 102) = (None, false).
Proof.
  destruct cache_a_facts as (Hm & Hwt & _ & Hi2).
  split_and!; [reflexivity|exact Hm|exact Hwt|exact Hi2|].
  destruct (Set_Del_undoes_insert cache_a "b" (Some 2) 399 101 101
              eq_refl Hm Hwt Hi2)
    as (r & c2 & t2 & Hr & Hev & Hd & Hc & Hg).
  exists r. split_and!; [exact Hr|exact Hd| |exact (Hg 102)].
  rewrite Hc. assert (Some (c2, t2) = Some (cache_a, [])) as [= -> _];
    [|reflexivity].
  rewrite <- Hev. by vm_compute.
Defined.

(** ["a"] is stale in [cache_ab] at reading 200. *)
Lemma Get_miss_is_sticky_witness :
  (value (Get cache_ab "a" 200)).2 = false ∧
  items (cache (Get cache_ab "a" 200)) !! "a" = None ∧
  value (Get (cache (Get cache_ab "a" 200)) "a" 50) = (None, false) ∧
  value (Del (cache (Get cache_ab "a" 200)) "a") = false.
Proof.
  destruct (Get_miss_is_sticky cache_ab "a" 200 eq_refl) as (Hg & Hs & Hd).
  split_and!; [reflexivity|exact Hg| |exact Hd]. by rewrite (Hs 50).
Defined.

Lemma Get_Del_other_keys_witness :
  "a" ≠ "b" ∧
  items (cache (Get cache_ab "a" 200)) !! "b" = items cache_ab !! "b" ∧
  value (Get (cache (Del cache_ab "a")) "b" 200)
  = value (Get cache_ab "b" 200).
Proof.
  assert (Hne : "a" ≠ "b") by done.
  destruct (Get_Del_other_keys cache_ab "a" "b" 200 Hne)
    as (Hg & _ & Hv & _).
  split_and!; [exact Hne|exact Hg|exact (proj2 (Hv 200))].
Defined.

(** ["c"] enters [cache_ab] at reading 200: the stale front ["a"] is swept,
    which makes room, and ["b"] stays. *)
Lemma Set_absent_drops_from_front_witness :
  items cache_ab !! "c" = None ∧ well_typed cache_ab ∧ I1 cache_ab ∧
  I2 cache_ab ∧
  ∃ r e, Set_ cache_ab "c" (Some 3) 0 200 200 = Some r ∧
         lst (cache r) = [node_b; e] ∧
         itemCount (cache r) = 2 ∧
         items (cache r) !! "b" = Some node_b.
Proof.
  destruct cache_ab_facts as (_ & Hwt & Hi1 & Hi2).
  split_and!; [reflexivity|exact Hwt|exact Hi1|exact Hi2|].
  destruct (Set_ cache_ab "c" (Some 3) 0 200 200) as [r|] eqn:Hr;
    [|by vm_compute in Hr].
  destruct (Set_absent_drops_from_front cache_ab "c" (Some 3) 0 200 200 r
              eq_refl Hwt Hi2 Hr) as (e & Hl & _ & _ & Hc & Hix).
  exists r, e. split_and!; [reflexivity|exact Hl|exact Hc|].
  apply (Hix Hi1 "b" node_b); [done|]. split; [by left|reflexivity].
Defined.

Lemma Set_present_invisible_witness :
  items cache_ab !! "a" = Some node_a ∧
  ∃ r, Set_ cache_ab "a" (Some 7) 50 101 101 = Some r ∧
       value (Get (cache r) "a" 102) = value (Get cache_ab "a" 102) ∧
       value (Get cache_ab "a" 102) = (Some 1, true).
Proof.
  split; [reflexivity|].
  destruct (Set_present_invisible cache_ab "a" node_a (Some 7) 50 101 101
              eq_refl) as (r & Hr & Hsame).
  exists r. split_and!; [exact Hr|exact (proj1 (Hsame "a") 102)|reflexivity].
Defined.

Lemma cache_ab_sorted :
  ∀ i j y z, (i ≤ j)%nat →
    lst cache_ab !! i = Some y → lst cache_ab !! j = Some z →
    expire (Value y) ≤ expire (Value z).
Proof.
  intros i j y z Hij Hy Hz.
  destruct i as [|[|i]], j as [|[|j]]; simpl in *; simplify_eq;
    try lia; by vm_compute.
Qed.

(** [cache_ab] is in order of expiry (105, 500); the sweep at reading 200
    leaves ["b"] only, which is not stale. *)
Lemma removeExpired_sorted_clears_stale_witness :
  well_typed cache_ab ∧ I2 cache_ab ∧
  node_b ∈ lst (removeExpired 200 cache_ab).1 ∧
  ¬ expire (Value node_b) < UnixNano 200.
Proof.
  destruct cache_ab_facts as (_ & Hwt & _ & Hi2).
  assert (Hin : node_b ∈ lst (removeExpired 200 cache_ab).1).
  { change (node_b ∈ [node_b]). by left. }
  split_and!; [exact Hwt|exact Hi2|exact Hin|].
  exact (removeExpired_sorted_clears_stale 200 cache_ab Hwt Hi2
           cache_ab_sorted node_b Hin).
Defined.

Lemma removeExpired_twice_witness :
  well_typed cache_ab ∧ I2 cache_ab ∧ UnixNano 200 ≤ UnixNano 600 ∧
  (removeExpired 600 (removeExpired 200 cache_ab).1).1
  = (removeExpired 600 cache_ab).1 ∧
  lst (removeExpired 600 cache_ab).1 = [].
Proof.
  destruct cache_ab_facts as (_ & Hwt & _ & Hi2).
  assert (Hle : UnixNano 200 ≤ UnixNano 600) by by vm_compute.
  split_and!; [exact Hwt|exact Hi2|exact Hle| |reflexivity].
  exact (proj1 (removeExpired_twice 200 600 cache_ab Hwt Hi2 Hle)).
Defined.

(** The first [Set] on a cache built with a limit of zero. *)
Lemma Set_panics_iff_witness :
  MaxEntryLimit cfg0 ≤ 0 ∧
  Set_ (New cfg0).1 "a" (Some 1) 5 100 100 = None ∧
  well_typed (New (V:=Z) cfg0).1 ∧ I2 (New (V:=Z) cfg0).1 ∧
  (items (New (V:=Z) cfg0).1 !! "a" = None ∧
   MaxEntryLimit cfg0 ≤ itemCount (removeExpired 100 (New (V:=Z) cfg0).1).1 ∧
   lst (removeExpired 100 (New (V:=Z) cfg0).1).1 = []) ∧
  MaxEntryLimit (config (New (V:=Z) cfg0).1) ≤ 0.
Proof.
  assert (Hm : MaxEntryLimit cfg0 ≤ 0) by by vm_compute.
  assert (Hwt : well_typed (New (V:=Z) cfg0).1) by by vm_compute.
  assert (Hi2 : I2 (New (V:=Z) cfg0).1) by reflexivity.
  destruct (Set_panics_iff (New cfg0).1 "a" (Some 1) 5 100 100)
    as (Hiff & Hwf & Hnew).
  pose proof (Hnew cfg0 Hm) as Hpanic.
  exact (conj Hm (conj Hpanic (conj Hwt (conj Hi2
           (conj (proj1 Hiff Hpanic) (proj1 (Hwf Hwt Hi2 Hpanic))))))).
Defined.

Lemma index_size_is_itemCount_witness :
  in_int64 (MaxEntryLimit cfg2) ∧ reachable cfg2 cache_ab ∧
  size (items cache_ab) = 2%nat ∧
  Z.of_nat (size (items cache_ab)) = itemCount cache_ab.
Proof.
  destruct cfg2_ok as [_ Hint].
  destruct (index_size_is_itemCount cfg2 cache_ab Hint cache_ab_reachable)
    as (Hs & Hc & _).
  split_and!; [exact Hint|exact cache_ab_reachable|exact Hs|exact Hc].
Defined.

(** The three calls of [calls3] into a cache of capacity two: ["b"] and
    ["c"] are kept, ["a"] is gone. *)
Lemma SetAll_keeps_last_witness :
  1 ≤ MaxEntryLimit cfg2 ∧ in_int64 (MaxEntryLimit cfg2) ∧
  NoDup (call_key <$> calls3) ∧ no_expiry cfg2 calls3 ∧
  ∃ c', SetAll (New cfg2).1 calls3 = Some c' ∧
        Value <$> lst c' = drop 1 (call_pair cfg2 <$> calls3) ∧
        itemCount c' = 2 ∧
        value (Get c' "c" 105) = (Some 3, true) ∧
        value (Get c' "a" 105) = (None, false).
Proof.
  destruct cfg2_ok as [Hm Hi].
  assert (Hnd : NoDup (call_key <$> calls3)) by compute_done.
  split_and!; [exact Hm|exact Hi|exact Hnd|exact calls3_no_expiry|].
  destruct (SetAll_keeps_last cfg2 calls3 Hm Hi Hnd calls3_no_expiry)
    as (c' & Hall & Hv & Hc & Hlast & Hfirst).
  exists c'. split_and!; [exact Hall|exact Hv|exact Hc| |].
  - refine (Hlast 2%nat _ 105 eq_refl _ _); [vm_compute; lia|by vm_compute].
  - refine (Hfirst 0%nat _ 105 eq_refl _). vm_compute. lia.
Defined.

(** In the full [cache_ab], ["a"] is refreshed and then ["c"] is inserted
    at reading 102: ["b"] is evicted, ["a"] survives. *)
Lemma refresh_protects_from_eviction_witness :
  well_typed cache_ab ∧ I1 cache_ab ∧ I2 cache_ab ∧
  lst cache_ab = [node_a; node_b] ∧
  MaxEntryLimit (config cache_ab) ≤ itemCount cache_ab ∧
  items cache_ab !! "c" = None ∧
  ¬ expire (Value node_b) < UnixNano 102 ∧
  ∃ r1 r2 e3,
    Set_ cache_ab "a" (Some 7) 5 101 101 = Some r1 ∧
    Set_ (cache r1) "c" (Some 3) 0 102 102 = Some r2 ∧
    lst (cache r2) = [node_a; e3] ∧
    items (cache r2) !! "a" = Some node_a ∧
    items (cache r2) !! "b" = None.
Proof.
  destruct cache_ab_facts as (_ & Hwt & Hi1 & Hi2).
  assert (Hfull : MaxEntryLimit (config cache_ab) ≤ itemCount cache_ab)
    by by vm_compute.
  assert (Hf : ¬ expire (Value node_b) < UnixNano 102) by by vm_compute.
  split_and!; [exact Hwt|exact Hi1|exact Hi2|reflexivity|exact Hfull
              |reflexivity|exact Hf|].
  destruct (refresh_protects_from_eviction cache_ab node_a node_b [] "c"
              (Some 7) (Some 3) 5 0 101 101 102 102
              Hwt Hi1 Hi2 eq_refl Hfull eq_refl Hf)
    as (r1 & r2 & e3 & H1 & H2 & Hl & Ha & Hb & _).
  exists r1, r2, e3. split_and!; [exact H1|exact H2|exact Hl|exact Ha|exact Hb].
Defined.

Lemma lock_discipline_witness :
  (∃ r, Set_ cache_ab "c" (Some 3) 0 200 200 = Some r ∧
        writes_exclusive Free (trace r) = true) ∧
  writes_exclusive Free (trace (Del cache_ab "a")) = true ∧
  (items cache_ab !! "a" = Some node_a ∧
   expire (Value node_a) < UnixNano 200 ∧
   writes_exclusive Free (trace (Get cache_ab "a" 200)) = false) ∧
  (writes_exclusive Free (trace (Get cache_ab "b" 200)) = true ∧
   cache (Get cache_ab "b" 200) = cache_ab).
Proof.
  assert (Hs : expire (Value node_a) < UnixNano 200) by by vm_compute.
  destruct (lock_discipline cache_ab "c" (Some 3) 0 200 200 200)
    as (Hset & _).
  destruct (lock_discipline cache_ab "a" (Some 3) 0 200 200 200)
    as (_ & Hdel & Hget & _).
  destruct (lock_discipline cache_ab "b" (Some 3) 0 200 200 200)
    as (_ & _ & _ & Hro).
  split_and!.
  - destruct (Set_ cache_ab "c" (Some 3) 0 200 200) as [r|] eqn:Hr;
      [|by vm_compute in Hr].
    exists r. split; [reflexivity|]. by apply Hset.
  - exact Hdel.
  - reflexivity.
  - exact Hs.
  - apply Hget. by exists node_a.
  - reflexivity.
  - exact (proj2 (Hro eq_refl)).
Defined.

